(** * Discovery service: the cluster state engine and the list endpoint

  A shallow embedding of [internal/state/cluster.go] (the [Cluster] type
  and its methods) and of the [GET /:cluster] handler of
  [cmd/kubespan-manager/main.go], with the properties the specification
  states about them.

  Conventions.
  - A Go pointer is an address ([ptr], a natural number; [nil] is 0).
    Heap objects live in finite maps from addresses, and [&T{...}] and
    [make] take an address that is not in use.
  - [map[string]*Affiliate] is a [gmap string Affiliate]: affiliates never
    leave the cluster by reference, so the map holds their state directly
    and a mutation through the pointer is an update of the entry.
  - The calls of the methods are taken one after the other, a call being
    one transition of the state.  The [Lock] and [Unlock] calls of the two
    mutexes are kept as events of a trace, in program order, a deferred
    [Unlock] where the method returns.
  - [range] over a Go map visits the entries in an order the language does
    not fix; every method that ranges takes the order as an argument. *)

From stdpp Require Import gmap strings list fin_maps.

Set Default Proof Using "Type".

(** ** Addresses *)

Definition ptr := nat.
Definition nil : ptr := 0.

(** [time.Time], as a number of ticks. *)
Definition Time := Z.
Bind Scope Z_scope with Time.

(** ** Notification

  [Notification{AffiliateID, Affiliate}]; the [Affiliate] field is a
  [*AffiliateExport], [None] when it is left out of the literal. *)
Module Notification.
Record t (E : Type) := Build {
  AffiliateID : string;
  Affiliate : option E
}.
Arguments Build {E} _ _.
Arguments AffiliateID {E} _.
Arguments Affiliate {E} _.
End Notification.

Abbreviation Notification := Notification.t.

(** ** Subscription

  The three fields [Subscribe] fills in: the back-reference to the
  cluster, the error channel and the caller's delivery channel. *)
Record Subscription := {
  cluster : ptr;
  errCh : ptr;
  ch : ptr
}.

(** A channel of errors as [make(chan error, n)] creates it. *)
Record Chan := {
  chan_cap : nat;
  chan_buf : list string
}.

Definition make_chan (n : nat) : Chan := {| chan_cap := n; chan_buf := [] |}.

(** Allocation: an address that is neither [nil] nor in use. *)
Definition alloc {V : Type} (h : gmap ptr V) : ptr := fresh ({[nil]} ∪ dom h).

(** ** The affiliate interface

  [cluster.go] uses an affiliate only through these operations; their
  bodies are in another file of the package.  A method with a pointer
  receiver that may write to the affiliate returns its new state. *)
Class AffiliateOps (Affiliate AffiliateExport : Type) := {
  NewAffiliate : string → Affiliate;
  ClearChanged : Affiliate → Affiliate;
  IsChanged : Affiliate → bool;
  Export : Affiliate → AffiliateExport;
  (** [remove, changed := affiliate.GarbageCollect(now)] *)
  Affiliate_GarbageCollect : Time → Affiliate → bool * bool * Affiliate
}.

(** ** The order of a [range] over a map

  Any enumeration of the entries, each once. *)
Record RangeOrder (V : Type) := {
  range_of :> gmap string V → list (string * V);
  range_of_perm : ∀ m, range_of m ≡ₚ map_to_list m
}.
Arguments range_of {V} _ _.
Arguments range_of_perm {V} _ _.

(** One order that exists: the one of [map_to_list]. *)
Definition canonical_order (V : Type) : RangeOrder V :=
  {| range_of := map_to_list; range_of_perm := λ m, reflexivity _ |}.

(** ** Mutexes and the trace

    The two mutexes of a cluster, and what a run leaves behind: the [Lock]
    and [Unlock] calls, the notifications handed to [cluster.notify], and
    the calls of [subscription.notify]. *)
Inductive Mutex := affiliatesMu | subscriptionsMu.

Inductive Event (E : Type) :=
  | EvLock (mu : Mutex)
  | EvUnlock (mu : Mutex)
  | EvNotify (notification : Notification E)
  | EvDeliver (subscription : ptr) (notification : Notification E).
Arguments EvLock {E} _.
Arguments EvUnlock {E} _.
Arguments EvNotify {E} _.
Arguments EvDeliver {E} _ _.

Section cluster.
Context {Affiliate AffiliateExport : Type}.
Context `{!AffiliateOps Affiliate AffiliateExport}.

(** ** Cluster and the state it runs in *)

(** The [Cluster] struct; the mutexes show in the trace. *)
Record Cluster := {
  affiliates : gmap string Affiliate;
  id : string;
  subscriptions : list ptr
}.

(** The cluster, the heap objects it points to, and the trace. *)
Record State := {
  cl : Cluster;
  subscriptionHeap : gmap ptr Subscription;
  chanHeap : gmap ptr Chan;
  trace : list (Event AffiliateExport)
}.

Definition set_affiliates (m : gmap string Affiliate) (st : State) : State :=
  {| cl := {| affiliates := m; id := id (cl st);
              subscriptions := subscriptions (cl st) |};
     subscriptionHeap := subscriptionHeap st; chanHeap := chanHeap st;
     trace := trace st |}.

Definition set_subscriptions (l : list ptr) (st : State) : State :=
  {| cl := {| affiliates := affiliates (cl st); id := id (cl st);
              subscriptions := l |};
     subscriptionHeap := subscriptionHeap st; chanHeap := chanHeap st;
     trace := trace st |}.

Definition emit (events : list (Event AffiliateExport)) (st : State) : State :=
  {| cl := cl st;
     subscriptionHeap := subscriptionHeap st; chanHeap := chanHeap st;
     trace := trace st ++ events |}.

(** [mu.Lock()] and [mu.Unlock()]. *)
Definition Lock (mu : Mutex) (st : State) : State := emit [EvLock mu] st.
Definition Unlock (mu : Mutex) (st : State) : State := emit [EvUnlock mu] st.

(** The notifications handed to [cluster.notify] so far, and the calls of
    [subscription.notify] so far, in order. *)
Definition notified (st : State) : list (Notification AffiliateExport) :=
  omap (λ e, match e with EvNotify n => Some n | _ => None end) (trace st).

Definition delivered (st : State) : list (ptr * Notification AffiliateExport) :=
  omap (λ e, match e with EvDeliver s n => Some (s, n) | _ => None end)
       (trace st).

(** [NewCluster(id)]: no affiliates, and a nil slice of subscriptions. *)
Definition NewCluster (id : string) : Cluster :=
  {| affiliates := ∅; id := id; subscriptions := [] |}.

Definition initial (id : string) : State :=
  {| cl := NewCluster id; subscriptionHeap := ∅; chanHeap := ∅; trace := [] |}.

(** ** notify *)

(** Modelled from the spec: [Subscription.notify] is in a file of the
    package that is not among the sources.  The specification has it try a
    send on the subscription's channel and signal a failure on its error
    channel; it reads and writes nothing of the cluster.  The model records
    the call. *)
Definition Subscription_notify (subscription : ptr)
    (notification : Notification AffiliateExport) (st : State) : State :=
  emit [EvDeliver subscription notification] st.

(** [cluster.notify(notifications...)]: under the subscription lock, copy
    the slice of subscriptions; then the two nested loops.  The call first
    leaves its arguments in the trace. *)
Definition notify (notifications : list (Notification AffiliateExport))
    (st : State) : State :=
  let st := emit (EvNotify <$> notifications) st in
  let st := Lock subscriptionsMu st in
  let subscriptions := [] ++ subscriptions (cl st) in
  let st := Unlock subscriptionsMu st in
  foldl (λ st notification,
           foldl (λ st subscription,
                    Subscription_notify subscription notification st)
                 st subscriptions)
        st notifications.

(** ** WithAffiliate *)
Definition WithAffiliate (id : string) (f : Affiliate → Affiliate)
    (st : State) : State :=
  let st := Lock affiliatesMu st in
  let st :=
    match affiliates (cl st) !! id with
    | Some affiliate =>
        let affiliate := ClearChanged affiliate in
        let affiliate := f affiliate in
        let st := set_affiliates (<[id := affiliate]> (affiliates (cl st))) st in
        if IsChanged affiliate
        then notify [Notification.Build id (Some (Export affiliate))] st
        else st
    | None =>
        let affiliate := NewAffiliate id in
        let affiliate := f affiliate in
        let st := set_affiliates (<[id := affiliate]> (affiliates (cl st))) st in
        notify [Notification.Build id (Some (Export affiliate))] st
    end in
  Unlock affiliatesMu st.

(** ** DeleteAffiliate *)
Definition DeleteAffiliate (id : string) (st : State) : State :=
  let st := Lock affiliatesMu st in
  let st :=
    match affiliates (cl st) !! id with
    | Some _ =>
        let st := set_affiliates (delete id (affiliates (cl st))) st in
        notify [Notification.Build id None] st
    | None => st
    end in
  Unlock affiliatesMu st.

(** ** List *)
Definition List (order : RangeOrder Affiliate) (st : State)
    : list AffiliateExport * State :=
  let st := Lock affiliatesMu st in
  let result :=
    foldl (λ result kv, result ++ [Export kv.2]) []
          (order (affiliates (cl st))) in
  (result, Unlock affiliatesMu st).

(** ** Subscribe

    [self] is the address of the cluster the method is called on. *)
Definition Subscribe (self : ptr) (ch : ptr) (order : RangeOrder Affiliate)
    (st : State) : (list AffiliateExport * ptr) * State :=
  let st := Lock affiliatesMu st in
  let st := Lock subscriptionsMu st in
  let snapshot :=
    foldl (λ snapshot kv, snapshot ++ [Export kv.2]) []
          (order (affiliates (cl st))) in
  let errCh := alloc (chanHeap st) in
  let chans := <[errCh := make_chan 1]> (chanHeap st) in
  let subscription := alloc (subscriptionHeap st) in
  let subs := <[subscription := {| cluster := self; errCh := errCh; ch := ch |}]>
                (subscriptionHeap st) in
  let st :=
    {| cl := {| affiliates := affiliates (cl st); id := id (cl st);
                subscriptions := subscriptions (cl st) ++ [subscription] |};
       subscriptionHeap := subs; chanHeap := chans; trace := trace st |} in
  let st := Unlock subscriptionsMu st in
  let st := Unlock affiliatesMu st in
  (snapshot, subscription, st).

(** ** unsubscribe *)

(** The loop [for i := range cluster.subscriptions] up to its [return]:
    the first index that holds [subscription]. *)
Fixpoint first_index (l : list ptr) (subscription : ptr) (i : nat)
    : option nat :=
  match l with
  | [] => None
  | p :: l' =>
      if decide (p = subscription) then Some i
      else first_index l' subscription (S i)
  end.

(** The body of the [if]: the last element overwrites slot [i], the last
    slot is set to nil, and the slice loses its last slot. *)
Definition remove_at (i : nat) (l : list ptr) : list ptr :=
  let last := length l - 1 in
  let l := <[i := default nil (l !! last)]> l in
  let l := <[last := nil]> l in
  take last l.

Definition unsubscribe (subscription : ptr) (st : State) : State :=
  let st := Lock subscriptionsMu st in
  let st :=
    match first_index (subscriptions (cl st)) subscription 0 with
    | Some i => set_subscriptions (remove_at i (subscriptions (cl st))) st
    | None => st
    end in
  Unlock subscriptionsMu st.

(** ** GarbageCollect *)

(** One iteration of the loop, on the entry the range produces for [id].
    An entry deleted before the range reaches it is not produced. *)
Definition GarbageCollect_step (now : Time) (st : State) (id : string)
    : State :=
  match affiliates (cl st) !! id with
  | None => st
  | Some affiliate =>
      let '(remove, changed, affiliate) := Affiliate_GarbageCollect now affiliate in
      let st :=
        if remove
        then set_affiliates (delete id (affiliates (cl st))) st
        else set_affiliates (<[id := affiliate]> (affiliates (cl st))) st in
      if changed
      then notify [Notification.Build id None] st
      else st
  end.

Definition GarbageCollect (now : Time) (order : RangeOrder Affiliate)
    (st : State) : bool * State :=
  let st := Lock affiliatesMu st in
  let st := foldl (GarbageCollect_step now) st
                  (order (affiliates (cl st))).*1 in
  (bool_decide (size (affiliates (cl st)) = 0), Unlock affiliatesMu st).

(** ** The states a cluster goes through

    One call of a method. *)
Inductive step : State → State → Prop :=
  | step_WithAffiliate st id f :
      step st (WithAffiliate id f st)
  | step_List st order :
      step st (List order st).2
  | step_DeleteAffiliate st id :
      step st (DeleteAffiliate id st)
  | step_Subscribe st self ch order :
      step st (Subscribe self ch order st).2
  | step_unsubscribe st subscription :
      step st (unsubscribe subscription st)
  | step_GarbageCollect st now order :
      step st (GarbageCollect now order st).2.

(** A state that calls of the methods build from a new cluster. *)
Definition reachable (st : State) : Prop :=
  ∃ id, rtc step (initial id) st.

(** ** The per-affiliate sweep, by component *)
Definition removes (now : Time) (a : Affiliate) : bool :=
  (Affiliate_GarbageCollect now a).1.1.
Definition reports_change (now : Time) (a : Affiliate) : bool :=
  (Affiliate_GarbageCollect now a).1.2.
Definition after_sweep (now : Time) (a : Affiliate) : Affiliate :=
  (Affiliate_GarbageCollect now a).2.

End cluster.

Arguments Cluster : clear implicits.
Arguments State : clear implicits.

(** ** An affiliate implementation

    The theorems below hold for every implementation of the interface; this
    one serves the examples. *)
Module Reference.

(** Modelled from the spec: the [Affiliate] type, its constructor and its
    methods are in a file of the package that is not among the sources.
    The records follow the data model of the specification: an identifier,
    the ordered set of endpoints, the time of the last update and the
    changed flag; the exported view has the identifier and the endpoint
    set. *)
Record Endpoint := {
  address : string;
  updated : Time
}.

Record Affiliate := {
  aff_id : string;
  endpoints : list Endpoint;
  lastUpdated : Time;
  changed : bool
}.

Record AffiliateExport := {
  ID : string;
  Endpoints : list string
}.

(** The expiry threshold, in ticks. *)
Definition threshold : Z := 1800.

Definition stale (now : Time) (t : Time) : bool :=
  bool_decide (t + threshold < now)%Z.

Definition NewAffiliate (id : string) : Affiliate :=
  {| aff_id := id; endpoints := []; lastUpdated := 0%Z; changed := false |}.

Definition ClearChanged (a : Affiliate) : Affiliate :=
  {| aff_id := aff_id a; endpoints := endpoints a;
     lastUpdated := lastUpdated a; changed := false |}.

Definition IsChanged (a : Affiliate) : bool := changed a.

Definition Export (a : Affiliate) : AffiliateExport :=
  {| ID := aff_id a; Endpoints := address <$> endpoints a |}.

(** Modelled from the spec: the per-affiliate sweep, which is not among the
    sources, returns whether the affiliate should be removed (its last
    update is older than the expiry threshold) and whether removal or
    expiry changed the visible state.  Here the removal is reported as a
    change; short of it, the endpoints that are themselves older than the
    threshold expire, and a change is reported when one did. *)
Definition GarbageCollect (now : Time) (a : Affiliate)
    : bool * bool * Affiliate :=
  if stale now (lastUpdated a) then (true, true, a)
  else
    let kept := filter (λ e, stale now (updated e) = false) (endpoints a) in
    (false, bool_decide (length kept ≠ length (endpoints a)),
     {| aff_id := aff_id a; endpoints := kept;
        lastUpdated := lastUpdated a; changed := changed a |}).

(** Modelled from the spec: [addEndpoints], for one address.  An address
    already present is not added again; a new one is appended and marks
    the affiliate changed; the time of the last update is set. *)
Definition addEndpoint (now : Time) (addr : string) (a : Affiliate)
    : Affiliate :=
  if bool_decide (addr ∈ address <$> endpoints a)
  then {| aff_id := aff_id a; endpoints := endpoints a;
          lastUpdated := now; changed := changed a |}
  else {| aff_id := aff_id a;
          endpoints := endpoints a ++ [{| address := addr; updated := now |}];
          lastUpdated := now; changed := true |}.

#[global] Instance ops : AffiliateOps Affiliate AffiliateExport :=
  Build_AffiliateOps Affiliate AffiliateExport
    NewAffiliate ClearChanged IsChanged Export GarbageCollect.

End Reference.

(** ** The list endpoint, [GET /:cluster] *)
Module ListEndpoint.

(** Go errors as far as the handler looks at them: the store's sentinel
    [db.ErrNotFound], any other error, and an error wrapped by
    [fmt.Errorf("...: %w", err)]. *)
Inductive error :=
  | ErrNotFound
  | ErrOther (msg : string)
  | Wrap (msg : string) (err : error).

(** [errors.Is(e, db.ErrNotFound)]: the chain of wrapped errors is searched
    for the sentinel. *)
Fixpoint errors_Is_ErrNotFound (e : error) : bool :=
  match e with
  | ErrNotFound => true
  | ErrOther _ => false
  | Wrap _ err => errors_Is_ErrNotFound err
  end.

(** What the handler does besides answering: log lines by level, and calls
    of the store. *)
Inductive event :=
  | LogError (msg : string)
  | LogWarn (msg : string)
  | LogInfo (msg : string)
  | StoreList (cluster : string).

(** [c.SendStatus(code)] and [c.JSON(list)]. *)
Inductive response (Node : Type) :=
  | SendStatus (code : nat)
  | JSON (list : list Node).
Arguments SendStatus {Node} _.
Arguments JSON {Node} _.

Definition StatusBadRequest : nat := 400.
Definition StatusNotFound : nat := 404.
Definition StatusInternalServerError : nat := 500.

Section handler.
(** [uuid.Parse] of the uuid library: the parsed identifier or an error. *)
Context {UUID : Type} (uuid_Parse : string → UUID + error).
(** The store behind [nodeDB]: [List] answers from the store's state and
    may change it. *)
Context {Node DB : Type} (nodeDB_List : string → DB → (list Node + error) * DB).

Definition validateClusterID (cluster : string) : option error :=
  match uuid_Parse cluster with
  | inr err => Some (Wrap "cluster ID is not a valid UUID" err)
  | inl _ => None
  end.

(** The handler on the path parameter [c.Params("cluster")]: the events in
    the order they happen, the response, and the store afterwards. *)
Definition list_handler (cluster : string) (db : DB)
    : list event * response Node * DB :=
  if decide (cluster = "") then
    ([LogError "empty cluster for node list"], SendStatus StatusBadRequest, db)
  else
    match validateClusterID cluster with
    | Some e => ([LogError "bad cluster ID"], SendStatus StatusBadRequest, db)
    | None =>
        let '(r, db') := nodeDB_List cluster db in
        match r with
        | inr e =>
            if errors_Is_ErrNotFound e then
              ([StoreList cluster; LogWarn "cluster not found"],
               SendStatus StatusNotFound, db')
            else ([StoreList cluster], SendStatus StatusInternalServerError, db')
        | inl list =>
            ([StoreList cluster; LogInfo "listing cluster nodes"], JSON list, db')
        end
    end.

End handler.

(** A parser and a store for the examples: the parser takes the textual
    form [xxxxxxxx-xxxx-xxxx-xxxx-xxxxxxxxxxxx] of hexadecimal digits, the
    store is a map from cluster to its nodes. *)
Definition is_hex (c : Ascii.ascii) : bool :=
  let n := Ascii.nat_of_ascii c in
  ((48 <=? n) && (n <=? 57)) || ((97 <=? n) && (n <=? 102))
  || ((65 <=? n) && (n <=? 70)).

Fixpoint uuid_shape (i : nat) (s : string) : bool :=
  match s with
  | EmptyString => i =? 36
  | String c s' =>
      (if (i =? 8) || (i =? 13) || (i =? 18) || (i =? 23)
       then Ascii.nat_of_ascii c =? 45 else is_hex c)
      && uuid_shape (S i) s'
  end.

Definition example_Parse (s : string) : string + error :=
  if uuid_shape 0 s then inl s else inr (ErrOther "invalid UUID").

Definition example_List (cluster : string) (db : gmap string (list string))
    : (list string + error) * gmap string (list string) :=
  match db !! cluster with
  | Some nodes => (inl nodes, db)
  | None => (inr (Wrap "list failed" ErrNotFound), db)
  end.

End ListEndpoint.

(** ** The node endpoints: [GET], [PUT /:cluster/:node] and [POST /:cluster] *)
Module NodeEndpoints.
Import ListEndpoint.

(** [types.Address] and [types.Node], by the fields the handlers read; the
    address type [IP] is the library's. *)
Record Address (IP : Type) := {
  addr_IP : IP;
  Name : string
}.
Arguments addr_IP {IP} _.
Arguments Name {IP} _.

(** [Addresses] is a [[]*types.Address]: an element may be nil. *)
Record Node (IP : Type) := {
  ID : string;
  node_IP : IP;
  Addresses : list (option (Address IP))
}.
Arguments ID {IP} _.
Arguments node_IP {IP} _.
Arguments Addresses {IP} _.

(** The path parameters and the body of a request. *)
Record Request (Body : Type) := {
  param_cluster : string;
  param_node : string;
  body : Body
}.
Arguments param_cluster {Body} _.
Arguments param_node {Body} _.
Arguments body {Body} _.

(** Log lines by level, and calls of the store. *)
Inductive event (IP : Type) :=
  | LogError (msg : string)
  | LogWarn (msg : string)
  | LogInfo (msg : string)
  | StoreGet (cluster node : string)
  | StoreAddAddresses (cluster node : string)
      (addresses : list (option (Address IP)))
  | StoreAdd (cluster : string) (n : Node IP).
Arguments LogError {IP} _.
Arguments LogWarn {IP} _.
Arguments LogInfo {IP} _.
Arguments StoreGet {IP} _ _.
Arguments StoreAddAddresses {IP} _ _ _.
Arguments StoreAdd {IP} _ _.

(** How a handler ends: [c.SendStatus(code)], [c.JSON(n)], or the panic of
    a nil pointer dereference. *)
Inductive outcome (IP : Type) :=
  | Sent (code : nat)
  | SentJSON (n : Node IP)
  | Panic.
Arguments Sent {IP} _.
Arguments SentJSON {IP} _.
Arguments Panic {IP}.

Definition StatusNoContent : nat := 204.

Section handlers.
(** The address library: [IP.IsZero] and [IP.String]. *)
Context {IP : Type} (IsZero : IP → bool) (IP_String : IP → string).
(** [uuid.Parse] and [wgtypes.ParseKey]. *)
Context {UUID Key : Type}.
Context (uuid_Parse : string → UUID + error).
Context (wg_ParseKey : string → Key + error).
(** [c.BodyParser] into a slice of addresses and into a node. *)
Context {Body : Type}.
Context (BodyParser_addresses : Body → list (option (Address IP)) + error).
Context (BodyParser_node : Body → Node IP + error).
(** The store behind [nodeDB]. *)
Context {DB : Type}.
Context (nodeDB_Get : string → string → DB → (Node IP + error) * DB).
Context (nodeDB_AddAddresses :
  string → string → list (option (Address IP)) → DB → option error * DB).
Context (nodeDB_Add : string → Node IP → DB → option error * DB).

(** [addressToString]: the loop appends to [out]; reading a field of a nil
    address panics, which is [None]. *)
Definition addressToString (addresses : list (option (Address IP)))
    : option (list string) :=
  foldl (λ out a,
           match out, a with
           | Some out, Some a =>
               if negb (IsZero (addr_IP a))
               then Some (out ++ [IP_String (addr_IP a)])
               else Some (out ++ [Name a])
           | _, _ => None
           end)
        (Some []) addresses.

Definition validatePublicKey (key : string) : option error :=
  match wg_ParseKey key with
  | inr _ => Some (ErrOther "node ID is not a valid wireguard key")
  | inl _ => None
  end.

(** [GET /:cluster/:node] *)
Definition get_node (req : Request Body) (db : DB)
    : list (event IP) * outcome IP * DB :=
  let cluster := param_cluster req in
  if decide (cluster = "") then
    ([LogError "empty cluster for node get"], Sent StatusBadRequest, db)
  else
    match validateClusterID uuid_Parse cluster with
    | Some e => ([LogError "bad cluster ID"], Sent StatusBadRequest, db)
    | None =>
    match validatePublicKey (param_node req) with
    | Some e => ([LogError "bad node ID"], Sent StatusBadRequest, db)
    | None =>
        let node := param_node req in
        if decide (node = "") then
          ([LogError "empty node for node get"], Sent StatusBadRequest, db)
        else
          let '(r, db') := nodeDB_Get cluster node db in
          match r with
          | inr e =>
              if errors_Is_ErrNotFound e then
                ([StoreGet cluster node; LogWarn "node not found"],
                 Sent StatusNotFound, db')
              else
                ([StoreGet cluster node], Sent StatusInternalServerError, db')
          | inl n =>
              match addressToString (Addresses n) with
              | None => ([StoreGet cluster node], Panic, db')
              | Some _ =>
                  ([StoreGet cluster node; LogInfo "returning cluster node"],
                   SentJSON n, db')
              end
          end
    end
    end.

(** [PUT /:cluster/:node] *)
Definition put_node (req : Request Body) (db : DB)
    : list (event IP) * outcome IP * DB :=
  match validateClusterID uuid_Parse (param_cluster req) with
  | Some e => ([LogError "bad cluster ID"], Sent StatusBadRequest, db)
  | None =>
  match validatePublicKey (param_node req) with
  | Some e => ([LogError "bad node ID"], Sent StatusBadRequest, db)
  | None =>
  match BodyParser_addresses (body req) with
  | inr e => ([LogError "failed to parse node PUT"], Sent StatusBadRequest, db)
  | inl addresses =>
      let node := param_node req in
      let logged :=
        if decide (node = "") then [LogError "invalid node key"] else [] in
      let '(r, db') :=
        nodeDB_AddAddresses (param_cluster req) node addresses db in
      let called := logged ++ [StoreAddAddresses (param_cluster req) node addresses] in
      match r with
      | Some err =>
          match addressToString addresses with
          | None => (called, Panic, db')
          | Some _ =>
              (called ++ [LogError "failed to add known endpoints"],
               Sent StatusInternalServerError, db')
          end
      | None => (called, Sent StatusNoContent, db')
      end
  end
  end
  end.

(** [POST /:cluster] *)
Definition post_node (req : Request Body) (db : DB)
    : list (event IP) * outcome IP * DB :=
  match validateClusterID uuid_Parse (param_cluster req) with
  | Some err => ([LogError "bad cluster ID"], Sent StatusBadRequest, db)
  | None =>
  match BodyParser_node (body req) with
  | inr err => ([LogError "failed to parse node POST"], Sent StatusBadRequest, db)
  | inl n =>
  match validatePublicKey (ID n) with
  | Some err => ([LogError "bad node ID"], Sent StatusBadRequest, db)
  | None =>
      let '(r, db') := nodeDB_Add (param_cluster req) n db in
      let called := [StoreAdd (param_cluster req) n] in
      match r with
      | Some err =>
          match addressToString (Addresses n) with
          | None => (called, Panic, db')
          | Some _ =>
              (called ++ [LogError "failed to add/update node"],
               Sent StatusInternalServerError, db')
          end
      | None =>
          match addressToString (Addresses n) with
          | None => (called, Panic, db')
          | Some _ =>
              (called ++ [LogInfo "add/update node"], Sent StatusNoContent, db')
          end
      end
  end
  end
  end.

End handlers.

End NodeEndpoints.

(** * Properties *)

Section cluster_facts.
Context {Affiliate AffiliateExport : Type}.
Context `{!AffiliateOps Affiliate AffiliateExport}.
Implicit Types (st : State Affiliate AffiliateExport).
Implicit Types (n : Notification AffiliateExport).
Implicit Types (ns : list (Notification AffiliateExport)).
Implicit Types (es : list (Event AffiliateExport)).
Implicit Types (m : gmap string Affiliate) (order : RangeOrder Affiliate).
Implicit Types (subs : list ptr).

Ltac proj_state :=
  cbn [cl affiliates id subscriptions subscriptionHeap chanHeap trace
       emit Lock Unlock set_affiliates set_subscriptions fst snd].

(** *** Events *)

Definition notifications_of es : list (Notification AffiliateExport) :=
  omap (λ e, match e with EvNotify n => Some n | _ => None end) es.

Definition deliveries_of es : list (ptr * Notification AffiliateExport) :=
  omap (λ e, match e with EvDeliver s n => Some (s, n) | _ => None end) es.

Lemma notifications_of_app es1 es2 :
  notifications_of (es1 ++ es2) = notifications_of es1 ++ notifications_of es2.
Proof. apply omap_app. Qed.

Lemma deliveries_of_app es1 es2 :
  deliveries_of (es1 ++ es2) = deliveries_of es1 ++ deliveries_of es2.
Proof. apply omap_app. Qed.

Lemma notified_emit es st : notified (emit es st) = notified st ++ notifications_of es.
Proof. apply omap_app. Qed.

Lemma delivered_emit es st : delivered (emit es st) = delivered st ++ deliveries_of es.
Proof. apply omap_app. Qed.

Lemma emit_emit es1 es2 st : emit es2 (emit es1 st) = emit (es1 ++ es2) st.
Proof. unfold emit. proj_state. by rewrite app_assoc. Qed.

Lemma emit_nil st : emit [] st = st.
Proof. unfold emit. rewrite app_nil_r. by destruct st. Qed.

Lemma cl_emit es st : cl (emit es st) = cl st.
Proof. done. Qed.

Lemma set_subscriptions_emit (l : list ptr) es st :
  set_subscriptions l (emit es st) = emit es (set_subscriptions l st).
Proof. done. Qed.

Lemma set_affiliates_id st : set_affiliates (affiliates (cl st)) st = st.
Proof. by destruct st as [[] ? ? ?]. Qed.

(** *** notify *)

(** The calls of [subscription.notify] that [notify] makes for the
    notifications [ns] over the subscriptions [subs]: notification after
    notification, and for each one subscription after subscription. *)
Definition deliveries ns subs : list (ptr * Notification AffiliateExport) :=
  n ← ns; (λ s, (s, n)) <$> subs.

(** The events of one call of [notify]. *)
Definition notify_events ns subs : list (Event AffiliateExport) :=
  (EvNotify <$> ns) ++
  [EvLock subscriptionsMu; EvUnlock subscriptionsMu] ++
  ((λ d, EvDeliver d.1 d.2) <$> deliveries ns subs).

Lemma deliver_one_spec n subs st :
  foldl (λ st s, Subscription_notify s n st) st subs =
  emit ((λ s, EvDeliver s n) <$> subs) st.
Proof.
  revert st. induction subs as [|s subs IH]; intros st; cbn [foldl fmap list_fmap].
  - by rewrite emit_nil.
  - rewrite IH. unfold Subscription_notify. by rewrite emit_emit.
Qed.

Lemma deliver_all_spec ns subs st :
  foldl (λ st n, foldl (λ st s, Subscription_notify s n st) st subs) st ns =
  emit ((λ d, EvDeliver d.1 d.2) <$> deliveries ns subs) st.
Proof.
  revert st. induction ns as [|n ns IH]; intros st; cbn [foldl].
  - by rewrite emit_nil.
  - rewrite IH, deliver_one_spec, emit_emit. f_equal.
    unfold deliveries. cbn [mbind list_bind]. fold (deliveries ns subs).
    rewrite fmap_app. f_equal. by rewrite <- list_fmap_compose.
Qed.

Lemma notify_spec ns st :
  notify ns st = emit (notify_events ns (subscriptions (cl st))) st.
Proof.
  unfold notify, notify_events. proj_state. cbn [app].
  rewrite deliver_all_spec. unfold Lock, Unlock. by rewrite !emit_emit.
Qed.

Lemma notifications_of_notify ns : notifications_of (EvNotify <$> ns) = ns.
Proof. induction ns as [|n ns IH]; [done|]. simpl. f_equal. exact IH. Qed.

Lemma notifications_of_deliver (ds : list (ptr * Notification AffiliateExport)) :
  notifications_of ((λ d, EvDeliver d.1 d.2) <$> ds) = [].
Proof. induction ds as [|d ds IH]; [done|]. simpl. exact IH. Qed.

Lemma deliveries_of_notify ns : deliveries_of (EvNotify <$> ns) = [].
Proof. induction ns as [|n ns IH]; [done|]. simpl. exact IH. Qed.

Lemma deliveries_of_deliver (ds : list (ptr * Notification AffiliateExport)) :
  deliveries_of ((λ d, EvDeliver d.1 d.2) <$> ds) = ds.
Proof. induction ds as [|[s n] ds IH]; [done|]. simpl. f_equal. exact IH. Qed.

Lemma notifications_of_notify_events ns subs :
  notifications_of (notify_events ns subs) = ns.
Proof.
  unfold notify_events. rewrite !notifications_of_app.
  rewrite notifications_of_notify, notifications_of_deliver.
  cbn. by rewrite app_nil_r.
Qed.

Lemma deliveries_of_notify_events ns subs :
  deliveries_of (notify_events ns subs) = deliveries ns subs.
Proof.
  unfold notify_events. rewrite !deliveries_of_app.
  by rewrite deliveries_of_notify, deliveries_of_deliver.
Qed.

Lemma deliveries_app ns1 ns2 subs :
  deliveries (ns1 ++ ns2) subs = deliveries ns1 subs ++ deliveries ns2 subs.
Proof. unfold deliveries. by rewrite bind_app. Qed.

Lemma deliveries_elem_of ns subs (s : ptr) n :
  (s, n) ∈ deliveries ns subs ↔ n ∈ ns ∧ s ∈ subs.
Proof.
  unfold deliveries. rewrite list_elem_of_bind. split.
  - intros (n' & Hin & Hn'). apply list_elem_of_fmap in Hin as (s' & [= -> ->] & Hs').
    done.
  - intros [Hn Hs]. exists n. split; [|done]. apply list_elem_of_fmap. eauto.
Qed.

Lemma deliveries_fst ns subs d : d ∈ deliveries ns subs → d.1 ∈ subs.
Proof. destruct d as [s n]. by intros [_ ?]%deliveries_elem_of. Qed.

Lemma deliveries_to ns subs (s : ptr) :
  NoDup subs → s ∈ subs →
  (filter (λ d, d.1 = s) (deliveries ns subs)).*2 = ns.
Proof.
  intros Hnd Hs. unfold deliveries.
  assert (Hone : ∀ n, filter (λ d : ptr * Notification AffiliateExport, d.1 = s)
                        ((λ s', (s', n)) <$> subs) = [(s, n)]).
  { intros n. clear ns. induction subs as [|p subs IH]; [by apply elem_of_nil in Hs|].
    apply NoDup_cons in Hnd as [Hp Hnd]. rewrite fmap_cons.
    destruct (decide (p = s)) as [->|Hne].
    - rewrite filter_cons_True by done. f_equal.
      clear IH Hs Hnd. induction subs as [|q subs IH]; [done|].
      rewrite fmap_cons, filter_cons_False.
      + apply IH. intros ?. apply Hp. by right.
      + simpl. intros ->. apply Hp. left.
    - rewrite filter_cons_False by done. apply IH; [done|].
      apply elem_of_cons in Hs as [?|Hs]; [congruence|done]. }
  induction ns as [|n ns IH]; [done|].
  change ((n :: ns) ≫= λ n, (λ s', (s', n)) <$> subs)
    with (((λ s', (s', n)) <$> subs) ++ (ns ≫= λ n, (λ s', (s', n)) <$> subs)).
  rewrite filter_app, fmap_app, Hone, IH. done.
Qed.

(** C10. [notify] leaves the cluster as it was, the map of affiliates and
    the list of subscriptions included, and the heap too.  Between a [Lock]
    and an [Unlock] of the subscription mutex it takes its copy of the list;
    after the [Unlock] it calls [subscription.notify] once for every
    notification and every subscription of the copy, notification after
    notification in the order supplied and, for one notification,
    subscription after subscription: a subscription of the list is handed
    the notifications as supplied. *)
Theorem notify_frame_and_delivery ns st :
  let st' := notify ns st in
  let subs := subscriptions (cl st) in
  cl st' = cl st ∧
  affiliates (cl st') = affiliates (cl st) ∧
  subscriptions (cl st') = subs ∧
  subscriptionHeap st' = subscriptionHeap st ∧
  chanHeap st' = chanHeap st ∧
  trace st' =
    trace st ++ (EvNotify <$> ns) ++
    [EvLock subscriptionsMu; EvUnlock subscriptionsMu] ++
    ((λ d, EvDeliver d.1 d.2) <$> deliveries ns subs) ∧
  delivered st' = delivered st ++ deliveries ns subs ∧
  (∀ n ns', deliveries (n :: ns') subs =
            ((λ s, (s, n)) <$> subs) ++ deliveries ns' subs) ∧
  (∀ s n, (s, n) ∈ deliveries ns subs ↔ n ∈ ns ∧ s ∈ subs) ∧
  (∀ s, NoDup subs → s ∈ subs →
        (filter (λ d, d.1 = s) (deliveries ns subs)).*2 = ns).
Proof.
  intros st' subs. subst st'. rewrite notify_spec.
  split_and!; try done.
  - by rewrite delivered_emit, deliveries_of_notify_events.
  - intros s n. apply deliveries_elem_of.
  - intros s. apply deliveries_to.
Qed.

(** *** The snapshot loop and List *)

Lemma snapshot_loop (kvs : list (string * Affiliate))
    (acc : list AffiliateExport) :
  foldl (λ result kv, result ++ [Export kv.2]) acc kvs =
  acc ++ ((λ kv, Export kv.2) <$> kvs).
Proof.
  revert acc. induction kvs as [|kv kvs IH]; intros acc; simpl.
  - by rewrite app_nil_r.
  - rewrite IH. by rewrite <- app_assoc.
Qed.

Lemma List_spec order st :
  List order st =
  ((λ kv, Export kv.2) <$> order (affiliates (cl st)),
   emit [EvLock affiliatesMu; EvUnlock affiliatesMu] st).
Proof.
  unfold List. proj_state. rewrite snapshot_loop. unfold Lock, Unlock.
  by rewrite emit_emit.
Qed.

Lemma range_keys_NoDup order m : NoDup (order m).*1.
Proof. rewrite (range_of_perm order m). apply NoDup_fst_map_to_list. Qed.

Lemma range_elem_of order m k a : (k, a) ∈ order m ↔ m !! k = Some a.
Proof. rewrite (range_of_perm order m). apply elem_of_map_to_list. Qed.

Lemma range_length order m : length (order m) = size m.
Proof. rewrite (range_of_perm order m). by rewrite length_map_to_list. Qed.

Lemma range_keys_elem_of order m k : k ∈ (order m).*1 ↔ is_Some (m !! k).
Proof.
  rewrite list_elem_of_fmap. split.
  - intros [[k' a] [-> Hin]]. apply range_elem_of in Hin. by exists a.
  - intros [a Ha]. exists (k, a). split; [done|]. by apply range_elem_of.
Qed.

(** The exports listed in a state with the map [m], in any order of the
    range: those of the entries of [m]. *)
Lemma List_elem_of order st e :
  e ∈ (List order st).1 ↔ ∃ k a, affiliates (cl st) !! k = Some a ∧ e = Export a.
Proof.
  rewrite List_spec. cbn [fst]. rewrite list_elem_of_fmap. split.
  - intros [[k a] [-> Hin]]. apply range_elem_of in Hin. eauto.
  - intros (k & a & Hk & ->). exists (k, a). split; [done|].
    by apply range_elem_of.
Qed.

(** C6. [List] returns one exported view per affiliate of the map: as many
    elements as the map has entries, element by element the export of the
    affiliate stored under a key, no key used twice and every key used;
    whatever the order of the range, the result is the same up to order.
    The map is read between the [Lock] and the [Unlock] of the affiliate
    mutex, and the call leaves the cluster and the heap as they were. *)
Theorem List_one_export_per_affiliate order st :
  let m := affiliates (cl st) in
  let result := (List order st).1 in
  let st' := (List order st).2 in
  length result = size m ∧
  result ≡ₚ (λ kv, Export kv.2) <$> map_to_list m ∧
  (∃ ids : list string,
     NoDup ids ∧ (∀ k, k ∈ ids ↔ is_Some (m !! k)) ∧
     Forall2 (λ e k, ∃ a, m !! k = Some a ∧ e = Export a) result ids) ∧
  cl st' = cl st ∧
  subscriptionHeap st' = subscriptionHeap st ∧
  chanHeap st' = chanHeap st ∧
  trace st' = trace st ++ [EvLock affiliatesMu; EvUnlock affiliatesMu].
Proof.
  intros m result st'. subst result st'. rewrite List_spec. proj_state.
  fold m. split_and!; try done.
  - by rewrite length_fmap, range_length.
  - by rewrite (range_of_perm order m).
  - exists (order m).*1. split_and!.
    + apply range_keys_NoDup.
    + apply range_keys_elem_of.
    + apply Forall2_fmap, Forall_Forall2_diag, Forall_forall.
      intros [k a] Hin. exists a. split; [|done].
      by apply range_elem_of in Hin.
Qed.

(** *** WithAffiliate *)

(** The events of a method that holds the affiliate mutex and calls
    [notify] for the notifications [ns], or not at all when there is none. *)
Definition call_notify ns subs : list (Event AffiliateExport) :=
  match ns with [] => [] | _ => notify_events ns subs end.

Definition locked_notify ns subs : list (Event AffiliateExport) :=
  [EvLock affiliatesMu] ++ call_notify ns subs ++ [EvUnlock affiliatesMu].

Lemma notifications_of_call_notify ns subs :
  notifications_of (call_notify ns subs) = ns.
Proof.
  destruct ns as [|n ns]; [done|]. apply notifications_of_notify_events.
Qed.

Lemma deliveries_of_call_notify ns subs :
  deliveries_of (call_notify ns subs) = deliveries ns subs.
Proof.
  destruct ns as [|n ns]; [done|]. apply deliveries_of_notify_events.
Qed.

Lemma notifications_of_locked_notify ns subs :
  notifications_of (locked_notify ns subs) = ns.
Proof.
  unfold locked_notify. rewrite !notifications_of_app.
  rewrite notifications_of_call_notify. cbn. by rewrite app_nil_r.
Qed.

Lemma deliveries_of_locked_notify ns subs :
  deliveries_of (locked_notify ns subs) = deliveries ns subs.
Proof.
  unfold locked_notify. rewrite !deliveries_of_app.
  rewrite deliveries_of_call_notify. cbn. by rewrite app_nil_r.
Qed.

(** What [WithAffiliate id f] stores under [id], and what it emits. *)
Definition written (id : string) (f : Affiliate → Affiliate) m : Affiliate :=
  match m !! id with
  | Some a => f (ClearChanged a)
  | None => f (NewAffiliate id)
  end.

Definition written_notes (id : string) (f : Affiliate → Affiliate) m
    : list (Notification AffiliateExport) :=
  let a' := written id f m in
  match m !! id with
  | Some _ =>
      if IsChanged a' then [Notification.Build id (Some (Export a'))] else []
  | None => [Notification.Build id (Some (Export a'))]
  end.

Lemma WithAffiliate_eq id (f : Affiliate → Affiliate) st :
  let m := affiliates (cl st) in
  WithAffiliate id f st =
  emit (locked_notify (written_notes id f m) (subscriptions (cl st)))
       (set_affiliates (<[id := written id f m]> m) st).
Proof.
  intros m. unfold WithAffiliate, written_notes, written, locked_notify,
    call_notify.
  proj_state. fold m.
  destruct (m !! id) as [a|];
    [destruct (IsChanged (f (ClearChanged a)))|];
    rewrite ?notify_spec; unfold Lock, Unlock; proj_state;
    unfold emit; proj_state; by rewrite <- ?app_assoc.
Qed.

(** C1. [WithAffiliate id f]: when [id] is in the map, [f] runs on the
    affiliate with its changed flag cleared, the entry holds the result, and
    one notification with the export of the result is emitted when the
    result is flagged changed, none otherwise; when [id] is not in the map,
    [f] runs on a new affiliate, the result is inserted and one notification
    with its export is emitted whatever [f] did.  The notification reaches
    the subscriptions of the cluster, which stay as they are. *)
Theorem WithAffiliate_spec id (f : Affiliate → Affiliate) st :
  let st' := WithAffiliate id f st in
  let m := affiliates (cl st) in
  (∀ a, m !! id = Some a →
     let a' := f (ClearChanged a) in
     let emitted :=
       if IsChanged a' then [Notification.Build id (Some (Export a'))] else [] in
     affiliates (cl st') = <[id := a']> m ∧
     notified st' = notified st ++ emitted ∧
     delivered st' = delivered st ++ deliveries emitted (subscriptions (cl st))) ∧
  (m !! id = None →
     let a' := f (NewAffiliate id) in
     let emitted := [Notification.Build id (Some (Export a'))] in
     affiliates (cl st') = <[id := a']> m ∧
     notified st' = notified st ++ emitted ∧
     delivered st' = delivered st ++ deliveries emitted (subscriptions (cl st))) ∧
  subscriptions (cl st') = subscriptions (cl st) ∧
  subscriptionHeap st' = subscriptionHeap st ∧
  chanHeap st' = chanHeap st.
Proof.
  intros st' m. subst st'. rewrite WithAffiliate_eq. fold m.
  rewrite notified_emit, delivered_emit.
  rewrite notifications_of_locked_notify, deliveries_of_locked_notify.
  unfold written_notes, written. proj_state.
  split_and!; try done.
  - by intros a ->.
  - by intros ->.
Qed.

(** *** DeleteAffiliate *)

Definition deleted_notes (id : string) m : list (Notification AffiliateExport) :=
  match m !! id with
  | Some _ => [Notification.Build id None]
  | None => []
  end.

Lemma DeleteAffiliate_eq id st :
  let m := affiliates (cl st) in
  DeleteAffiliate id st =
  emit (locked_notify (deleted_notes id m) (subscriptions (cl st)))
       (set_affiliates (delete id m) st).
Proof.
  intros m. unfold DeleteAffiliate, deleted_notes, locked_notify, call_notify.
  proj_state. fold m.
  destruct (m !! id) as [a|] eqn:Hm.
  - rewrite notify_spec. unfold Lock, Unlock. proj_state.
    unfold emit. proj_state. by rewrite <- ?app_assoc.
  - rewrite (delete_id m id Hm). unfold m. rewrite set_affiliates_id.
    unfold Lock, Unlock. by rewrite emit_emit.
Qed.

(** C3. [DeleteAffiliate id] on an [id] of the map deletes the entry and
    emits one notification, with the identifier and no affiliate; [List]
    then returns the exports of the other entries only, one fewer than
    before.  On an [id] that is not in the map the cluster stays as it is
    and nothing is emitted: the call leaves the [Lock] and the [Unlock] of
    the affiliate mutex in the trace and no more. *)
Theorem DeleteAffiliate_spec id st :
  let st' := DeleteAffiliate id st in
  let m := affiliates (cl st) in
  (∀ a, m !! id = Some a →
     affiliates (cl st') = delete id m ∧
     affiliates (cl st') !! id = None ∧
     notified st' = notified st ++ [Notification.Build id None] ∧
     delivered st' =
       delivered st ++ deliveries [Notification.Build id None] (subscriptions (cl st)) ∧
     ∀ order,
       S (length (List order st').1) = size m ∧
       ∀ e, e ∈ (List order st').1 ↔
            ∃ k b, k ≠ id ∧ m !! k = Some b ∧ e = Export b) ∧
  (m !! id = None →
     cl st' = cl st ∧ notified st' = notified st ∧ delivered st' = delivered st ∧
     trace st' = trace st ++ [EvLock affiliatesMu; EvUnlock affiliatesMu]) ∧
  subscriptions (cl st') = subscriptions (cl st) ∧
  subscriptionHeap st' = subscriptionHeap st ∧
  chanHeap st' = chanHeap st.
Proof.
  intros st' m. subst st'. rewrite DeleteAffiliate_eq. fold m.
  rewrite notified_emit, delivered_emit.
  rewrite notifications_of_locked_notify, deliveries_of_locked_notify.
  unfold deleted_notes, locked_notify, call_notify. proj_state.
  split_and!; try done.
  - intros a Hm. rewrite Hm. split_and!; try done.
    + apply lookup_delete_eq.
    + intros order. split.
      * rewrite List_spec. cbn [fst]. proj_state.
        rewrite length_fmap, range_length.
        rewrite map_size_delete_Some by eauto.
        assert (size m ≠ 0); [|lia].
        intros Hz%map_size_empty_inv. rewrite Hz in Hm.
        by rewrite lookup_empty in Hm.
      * intros e. rewrite List_elem_of. proj_state. split.
        -- intros (k & b & [Hne Hk]%lookup_delete_Some & ->). eauto.
        -- intros (k & b & Hne & Hk & ->). exists k, b. split; [|done].
           by apply lookup_delete_Some.
  - intros Hm. rewrite Hm, (delete_id m id Hm).
    unfold deliveries. cbn [mbind list_bind]. rewrite !app_nil_r.
    split_and!; try done. by destruct st as [[] ? ? ?].
Qed.

(** *** GarbageCollect *)

(** What the sweep leaves of an entry, and the notification it emits for
    the entry under [k] of the map [m]. *)
Definition keep (now : Time) (a : Affiliate) : option Affiliate :=
  if removes now a then None else Some (after_sweep now a).

Definition note (now : Time) m (k : string)
    : list (Notification AffiliateExport) :=
  match m !! k with
  | Some a => if reports_change now a then [Notification.Build k None] else []
  | None => []
  end.

Definition notes (now : Time) m (ks : list string)
    : list (Notification AffiliateExport) :=
  k ← ks; note now m k.

(** The map after the iteration for [k], and after the loop over [ks]. *)
Definition sweep_entry (now : Time) m (k : string) : gmap string Affiliate :=
  match m !! k with
  | Some a => if removes now a then delete k m else <[k := after_sweep now a]> m
  | None => m
  end.

Definition sweep_events (now : Time) m subs (ks : list string)
    : list (Event AffiliateExport) :=
  k ← ks; call_notify (note now m k) subs.

Lemma GC_step_eq now st k :
  let m := affiliates (cl st) in
  GarbageCollect_step now st k =
  emit (call_notify (note now m k) (subscriptions (cl st)))
       (set_affiliates (sweep_entry now m k) st).
Proof.
  intros m.
  unfold GarbageCollect_step, note, sweep_entry, removes, reports_change,
    after_sweep. fold m.
  destruct (m !! k) as [a|].
  - destruct (Affiliate_GarbageCollect now a) as [[[] []] a'];
      rewrite ?notify_spec; cbn [fst snd call_notify]; proj_state;
      by rewrite ?emit_nil.
  - unfold m. by rewrite set_affiliates_id, emit_nil.
Qed.

Lemma sweep_entry_lookup now m k0 k :
  sweep_entry now m k0 !! k =
  if decide (k = k0) then m !! k ≫= keep now else m !! k.
Proof.
  unfold sweep_entry, keep.
  destruct (m !! k0) as [a|] eqn:Hk0.
  - destruct (removes now a) eqn:Hr; case_decide; subst;
      rewrite ?Hk0; simpl; rewrite ?Hr; by simplify_map_eq.
  - case_decide; subst; [by rewrite Hk0|done].
Qed.

Lemma sweep_lookup now ks m k :
  NoDup ks →
  foldl (sweep_entry now) m ks !! k =
  if decide (k ∈ ks) then m !! k ≫= keep now else m !! k.
Proof.
  revert m. induction ks as [|k0 ks IH]; intros m Hnd; cbn [foldl].
  - rewrite decide_False; [done|]. apply not_elem_of_nil.
  - apply NoDup_cons in Hnd as [Hk0 Hnd]. rewrite IH by done.
    rewrite sweep_entry_lookup.
    destruct (decide (k = k0)) as [->|Hne].
    + rewrite decide_False by done. rewrite decide_True; [done|]. left.
    + destruct (decide (k ∈ ks)) as [Hin|Hnin].
      * rewrite decide_True; [done|]. by right.
      * rewrite decide_False; [done|]. by intros [?|?]%elem_of_cons.
Qed.

Lemma note_ext now m1 m2 k : m1 !! k = m2 !! k → note now m1 k = note now m2 k.
Proof. unfold note. by intros ->. Qed.

Lemma notes_cons now m k ks :
  notes now m (k :: ks) = note now m k ++ notes now m ks.
Proof. done. Qed.

Lemma sweep_events_cons now m subs k ks :
  sweep_events now m subs (k :: ks) =
  call_notify (note now m k) subs ++ sweep_events now m subs ks.
Proof. done. Qed.

Lemma sweep_events_ext now m1 m2 subs ks :
  (∀ k, k ∈ ks → m1 !! k = m2 !! k) →
  sweep_events now m1 subs ks = sweep_events now m2 subs ks.
Proof.
  induction ks as [|k ks IH]; intros Hks; [done|].
  rewrite !sweep_events_cons.
  rewrite (note_ext now m1 m2 k) by (apply Hks; left).
  rewrite IH; [done|]. intros k' Hk'. apply Hks. by right.
Qed.

Lemma notifications_of_sweep_events now m subs ks :
  notifications_of (sweep_events now m subs ks) = notes now m ks.
Proof.
  induction ks as [|k ks IH]; [done|].
  rewrite sweep_events_cons, notes_cons, notifications_of_app, IH.
  by rewrite notifications_of_call_notify.
Qed.

Lemma deliveries_of_sweep_events now m subs ks :
  deliveries_of (sweep_events now m subs ks) = deliveries (notes now m ks) subs.
Proof.
  induction ks as [|k ks IH]; [done|].
  rewrite sweep_events_cons, notes_cons, deliveries_of_app, IH.
  by rewrite deliveries_of_call_notify, deliveries_app.
Qed.

(** The loop over distinct keys. *)
Lemma GC_loop_eq now ks st :
  NoDup ks →
  foldl (GarbageCollect_step now) st ks =
  emit (sweep_events now (affiliates (cl st)) (subscriptions (cl st)) ks)
       (set_affiliates (foldl (sweep_entry now) (affiliates (cl st)) ks) st).
Proof.
  revert st. induction ks as [|k0 ks IH]; intros st Hnd; cbn [foldl].
  - by rewrite set_affiliates_id, emit_nil.
  - apply NoDup_cons in Hnd as [Hk0 Hnd]. rewrite IH by done.
    rewrite GC_step_eq. proj_state. rewrite sweep_events_cons.
    rewrite (sweep_events_ext now (sweep_entry now (affiliates (cl st)) k0)
               (affiliates (cl st))).
    + unfold emit. proj_state. by rewrite app_assoc.
    + intros k Hk. rewrite sweep_entry_lookup.
      rewrite decide_False; [done|]. by intros ->.
Qed.

Lemma GarbageCollect_eq now order st :
  let m := affiliates (cl st) in
  let ks := (order m).*1 in
  let m' := foldl (sweep_entry now) m ks in
  GarbageCollect now order st =
  (bool_decide (size m' = 0),
   emit ([EvLock affiliatesMu] ++ sweep_events now m (subscriptions (cl st)) ks ++
         [EvUnlock affiliatesMu])
        (set_affiliates m' st)).
Proof.
  intros m ks m'. unfold GarbageCollect. proj_state. fold m ks.
  rewrite GC_loop_eq by apply range_keys_NoDup. proj_state. fold m ks m'.
  f_equal. unfold Unlock, emit. proj_state. by rewrite <- !app_assoc.
Qed.

(** The notifications about [k] among those of the sweep. *)
Lemma notes_about now m ks k :
  NoDup ks →
  filter (λ n, Notification.AffiliateID n = k) (notes now m ks) =
  if decide (k ∈ ks) then note now m k else [].
Proof.
  induction ks as [|k0 ks IH]; intros Hnd.
  - rewrite decide_False; [done|]. apply not_elem_of_nil.
  - apply NoDup_cons in Hnd as [Hk0 Hnd].
    rewrite notes_cons, filter_app, IH by done.
    destruct (decide (k = k0)) as [->|Hne].
    + rewrite (decide_False (P := k0 ∈ ks)) by done.
      rewrite (decide_True (P := k0 ∈ k0 :: ks)) by left.
      rewrite app_nil_r. unfold note.
      destruct (m !! k0) as [a|]; [|done].
      destruct (reports_change now a); [|done].
      by rewrite filter_cons_True.
    + assert (filter (λ n, Notification.AffiliateID n = k) (note now m k0) = [])
        as ->.
      { unfold note. destruct (m !! k0) as [a|]; [|done].
        destruct (reports_change now a); [|done].
        by rewrite filter_cons_False. }
      simpl. destruct (decide (k ∈ ks)).
      * rewrite decide_True; [done|]. by right.
      * rewrite decide_False; [done|]. by intros [?|?]%elem_of_cons.
Qed.

Lemma notes_shape now m ks n :
  n ∈ notes now m ks →
  Notification.Affiliate n = None ∧
  ∃ a, m !! Notification.AffiliateID n = Some a ∧ reports_change now a = true.
Proof.
  unfold notes. rewrite list_elem_of_bind. intros (k & Hn & _).
  unfold note in Hn. destruct (m !! k) as [a|] eqn:Hk; [|by apply elem_of_nil in Hn].
  destruct (reports_change now a) eqn:Hc; [|by apply elem_of_nil in Hn].
  apply list_elem_of_singleton in Hn as ->. simpl. eauto.
Qed.

Lemma notes_of_entry now order m k a :
  m !! k = Some a →
  filter (λ n, Notification.AffiliateID n = k) (notes now m (order m).*1) =
  if reports_change now a then [Notification.Build k None] else [].
Proof.
  intros Hk. rewrite notes_about by apply range_keys_NoDup.
  rewrite decide_True by (apply range_keys_elem_of; by rewrite Hk).
  unfold note. by rewrite Hk.
Qed.

Lemma GarbageCollect_effect now order st :
  let m := affiliates (cl st) in
  let ks := (order m).*1 in
  let st' := (GarbageCollect now order st).2 in
  (∀ k, affiliates (cl st') !! k = m !! k ≫= keep now) ∧
  notified st' = notified st ++ notes now m ks ∧
  delivered st' = delivered st ++ deliveries (notes now m ks) (subscriptions (cl st)) ∧
  subscriptions (cl st') = subscriptions (cl st) ∧
  subscriptionHeap st' = subscriptionHeap st ∧
  chanHeap st' = chanHeap st ∧
  (GarbageCollect now order st).1 = bool_decide (size (affiliates (cl st')) = 0).
Proof.
  intros m ks st'. subst st'. rewrite GarbageCollect_eq. fold m ks.
  cbn [fst snd]. rewrite notified_emit, delivered_emit.
  rewrite !notifications_of_app, !deliveries_of_app.
  rewrite notifications_of_sweep_events, deliveries_of_sweep_events.
  proj_state. cbn. rewrite !app_nil_r.
  split_and!; try done.
  intros k. rewrite sweep_lookup by apply range_keys_NoDup. fold ks.
  case_decide as Hin; [done|].
  destruct (m !! k) as [a|] eqn:Hk; [|done].
  exfalso. apply Hin. unfold ks. apply range_keys_elem_of. by rewrite Hk.
Qed.


(** C9. Every notification [GarbageCollect] emits has the identifier and no
    affiliate, and one is emitted for each entry whose affiliate reports a
    change, whether or not it asks for removal: an affiliate that reports a
    change without asking for removal gets such a notification, stays in
    the map and is still listed. *)
Theorem GarbageCollect_notifies_every_change now order st :
  let m := affiliates (cl st) in
  let st' := (GarbageCollect now order st).2 in
  ∃ emitted,
    notified st' = notified st ++ emitted ∧
    (∀ n, n ∈ emitted → Notification.Affiliate n = None) ∧
    (∀ id a, m !! id = Some a → reports_change now a = true →
       filter (λ n, Notification.AffiliateID n = id) emitted =
       [Notification.Build id None]) ∧
    (∀ id a, m !! id = Some a →
       removes now a = false → reports_change now a = true →
       Notification.Build id None ∈ emitted ∧
       affiliates (cl st') !! id = Some (after_sweep now a) ∧
       ∀ order', Export (after_sweep now a) ∈ (List order' st').1).
Proof.
  intros m st'.
  destruct (GarbageCollect_effect now order st)
    as (Hm & Hn & _ & _ & _ & _ & _). fold m st' in Hm, Hn.
  exists (notes now m (order m).*1). split_and!.
  - done.
  - intros n Hin. by apply notes_shape in Hin as [? _].
  - intros k a Hk Hc. rewrite (notes_of_entry now order m k a Hk).
    by rewrite Hc.
  - intros k a Hk Hr Hc.
    assert (affiliates (cl st') !! k = Some (after_sweep now a)) as Hk'.
    { rewrite Hm, Hk. simpl. unfold keep. by rewrite Hr. }
    split_and!; [|done|].
    + assert (Notification.Build k None ∈
              filter (λ n : Notification AffiliateExport,
                        Notification.AffiliateID n = k)
                     (notes now m (order m).*1)) as Hin.
      { rewrite (notes_of_entry now order m k a Hk), Hc. left. }
      by apply list_elem_of_filter in Hin as [_ ?].
    + intros order'. apply List_elem_of. eauto.
Qed.

(** *** Subscribe *)

Lemma alloc_fresh {V : Type} (h : gmap ptr V) : h !! alloc h = None.
Proof.
  apply not_elem_of_dom. unfold alloc.
  pose proof (is_fresh ({[nil]} ∪ dom h)) as Hf. set_solver.
Qed.

Lemma alloc_not_nil {V : Type} (h : gmap ptr V) : alloc h ≠ nil.
Proof.
  unfold alloc. pose proof (is_fresh ({[nil]} ∪ dom h)) as Hf. set_solver.
Qed.

(** The state after [Subscribe]: one more object on the heap, at the end
    of the list, and four lock events in the trace. *)
Lemma Subscribe_effect (self ch : ptr) order st :
  let subscription := (Subscribe self ch order st).1.2 in
  let st' := (Subscribe self ch order st).2 in
  subscriptions (cl st') = subscriptions (cl st) ++ [subscription] ∧
  subscription ≠ nil ∧
  subscriptionHeap st !! subscription = None ∧
  (∃ e, subscriptionHeap st' !! subscription =
          Some {| cluster := self; errCh := e; ch := ch |} ∧
        e ≠ nil ∧ chanHeap st !! e = None ∧
        chanHeap st' !! e = Some {| chan_cap := 1; chan_buf := [] |} ∧
        (∀ p, p ≠ e → chanHeap st' !! p = chanHeap st !! p)) ∧
  (∀ p, p ≠ subscription → subscriptionHeap st' !! p = subscriptionHeap st !! p) ∧
  affiliates (cl st') = affiliates (cl st) ∧
  id (cl st') = id (cl st) ∧
  trace st' =
    trace st ++ [EvLock affiliatesMu; EvLock subscriptionsMu;
                 EvUnlock subscriptionsMu; EvUnlock affiliatesMu] ∧
  notified st' = notified st ∧
  delivered st' = delivered st.
Proof.
  intros subscription st'. subst subscription st'.
  unfold Subscribe, notified, delivered. proj_state.
  rewrite <- !app_assoc. cbn [app].
  split_and!; try done.
  - apply alloc_not_nil.
  - apply alloc_fresh.
  - exists (alloc (chanHeap st)). split_and!.
    + apply lookup_insert_eq.
    + apply alloc_not_nil.
    + apply alloc_fresh.
    + apply lookup_insert_eq.
    + intros p Hp. by apply lookup_insert_ne.
  - intros p Hp. by apply lookup_insert_ne.
  - rewrite omap_app. cbn. by rewrite app_nil_r.
  - rewrite omap_app. cbn. by rewrite app_nil_r.
Qed.

Lemma Subscribe_snapshot (self ch : ptr) order st :
  (Subscribe self ch order st).1.1 = (List order st).1.
Proof.
  rewrite List_spec. unfold Subscribe. proj_state. by rewrite snapshot_loop.
Qed.

(** C4. [Subscribe ch] returns the snapshot [List] computes in the same
    state, one export per affiliate of the map (in another order of the
    range, the same up to order), and the address of a new subscription:
    an object that was not on the heap, with the caller's channel, the
    cluster as back-reference and a new error channel of capacity one.
    The address is appended to the list of subscriptions; nothing else of
    the cluster changes and nothing is emitted.  Snapshot and registration
    happen with both mutexes held. *)
Theorem Subscribe_spec (self ch : ptr) order st :
  let snapshot := (Subscribe self ch order st).1.1 in
  let subscription := (Subscribe self ch order st).1.2 in
  let st' := (Subscribe self ch order st).2 in
  snapshot = (List order st).1 ∧
  (∀ order', snapshot ≡ₚ (List order' st).1) ∧
  length snapshot = size (affiliates (cl st)) ∧
  subscriptions (cl st') = subscriptions (cl st) ++ [subscription] ∧
  subscription ≠ nil ∧
  subscriptionHeap st !! subscription = None ∧
  (∃ e, subscriptionHeap st' !! subscription =
          Some {| cluster := self; errCh := e; ch := ch |} ∧
        e ≠ nil ∧ chanHeap st !! e = None ∧
        chanHeap st' !! e = Some {| chan_cap := 1; chan_buf := [] |} ∧
        (∀ p, p ≠ e → chanHeap st' !! p = chanHeap st !! p)) ∧
  (∀ p, p ≠ subscription → subscriptionHeap st' !! p = subscriptionHeap st !! p) ∧
  affiliates (cl st') = affiliates (cl st) ∧
  id (cl st') = id (cl st) ∧
  trace st' =
    trace st ++ [EvLock affiliatesMu; EvLock subscriptionsMu;
                 EvUnlock subscriptionsMu; EvUnlock affiliatesMu] ∧
  notified st' = notified st ∧
  delivered st' = delivered st.
Proof.
  intros snapshot subscription st'. subst snapshot subscription st'.
  rewrite Subscribe_snapshot.
  split; [done|]. split; [|split; [|apply Subscribe_effect]].
  - intros order'. rewrite !List_spec. cbn [fst].
    by rewrite (range_of_perm order), (range_of_perm order').
  - rewrite List_spec. cbn [fst]. by rewrite length_fmap, range_length.
Qed.

(** *** unsubscribe *)

Lemma first_index_None (l : list ptr) (s : ptr) (k : nat) :
  first_index l s k = None ↔ s ∉ l.
Proof.
  revert k. induction l as [|p l IH]; intros k; simpl.
  - split; [intros _; apply not_elem_of_nil|done].
  - case_decide as Hp; subst.
    + split; [done|]. intros Hn. exfalso. apply Hn. left.
    + rewrite IH, not_elem_of_cons. split; [by intros|by intros [_ ?]].
Qed.

Lemma first_index_Some (l : list ptr) (s : ptr) (k i : nat) :
  first_index l s k = Some i → k ≤ i ∧ l !! (i - k) = Some s.
Proof.
  revert k. induction l as [|p l IH]; intros k; simpl; [done|].
  case_decide as Hp; subst.
  - intros [= ->]. split; [lia|]. by rewrite Nat.sub_diag.
  - intros [Hle Hl]%IH. split; [lia|].
    replace (i - k) with (S (i - S k)) by lia. done.
Qed.

(** Slot [i] holds [s]: the slice is [s] and what [remove_at i] leaves, up
    to order. *)
Lemma remove_at_perm (l : list ptr) (i : nat) (s : ptr) :
  l !! i = Some s → l ≡ₚ s :: remove_at i l.
Proof.
  intros Hi. pose proof (lookup_lt_Some _ _ _ Hi) as Hlt.
  unfold remove_at. set (last := length l - 1).
  destruct (l !! last) as [x|] eqn:Hlast.
  2:{ apply lookup_ge_None in Hlast. lia. }
  simpl. rewrite take_insert_ge by done.
  assert (Hl : l = take last l ++ [x]).
  { rewrite <- (take_S_r l last x Hlast).
    replace (S last) with (length l) by lia. by rewrite firstn_all. }
  destruct (decide (i = last)) as [->|Hne].
  - rewrite take_insert_ge by done. assert (s = x) as -> by congruence.
    rewrite Hl at 1. by rewrite Permutation_app_comm.
  - rewrite take_insert_lt by lia.
    assert (Ht : take last l !! i = Some s).
    { rewrite lookup_take_lt by lia. done. }
    rewrite insert_take_drop by (rewrite length_take; lia).
    rewrite Hl at 1. rewrite <- (take_drop_middle (take last l) i s Ht) at 1.
    rewrite <- !app_assoc. simpl.
    rewrite <- !Permutation_middle. apply perm_skip.
    by rewrite app_nil_r.
Qed.

Lemma unsubscribe_unfold (s : ptr) st :
  let locks := [EvLock subscriptionsMu; EvUnlock subscriptionsMu] in
  ((s ∉ subscriptions (cl st)) ∧ unsubscribe s st = emit locks st) ∨
  (∃ i, subscriptions (cl st) !! i = Some s ∧
        unsubscribe s st =
        emit locks (set_subscriptions (remove_at i (subscriptions (cl st))) st)).
Proof.
  intros locks. subst locks. unfold unsubscribe, Lock, Unlock.
  rewrite !cl_emit.
  destruct (first_index (subscriptions (cl st)) s 0) as [i|] eqn:Hf.
  - right. exists i. apply first_index_Some in Hf as [_ Hi].
    rewrite Nat.sub_0_r in Hi. split; [done|].
    by rewrite set_subscriptions_emit, emit_emit.
  - left. apply first_index_None in Hf. split; [done|].
    by rewrite emit_emit.
Qed.

Lemma unsubscribe_perm (s : ptr) st :
  s ∈ subscriptions (cl st) →
  subscriptions (cl st) ≡ₚ s :: subscriptions (cl (unsubscribe s st)).
Proof.
  intros Hs. destruct (unsubscribe_unfold s st) as [[Hn _]|(i & Hi & ->)]; [done|].
  proj_state. by apply remove_at_perm.
Qed.

Lemma unsubscribe_off_list (s : ptr) st :
  s ∉ subscriptions (cl st) → cl (unsubscribe s st) = cl st.
Proof.
  intros Hs.
  destruct (unsubscribe_unfold s st) as [[_ ->]|(i & Hi%list_elem_of_lookup_2 & _)];
    done.
Qed.

Lemma unsubscribe_frame (s : ptr) st :
  affiliates (cl (unsubscribe s st)) = affiliates (cl st) ∧
  id (cl (unsubscribe s st)) = id (cl st) ∧
  subscriptionHeap (unsubscribe s st) = subscriptionHeap st ∧
  chanHeap (unsubscribe s st) = chanHeap st ∧
  trace (unsubscribe s st) =
    trace st ++ [EvLock subscriptionsMu; EvUnlock subscriptionsMu] ∧
  notified (unsubscribe s st) = notified st ∧
  delivered (unsubscribe s st) = delivered st.
Proof.
  destruct (unsubscribe_unfold s st) as [[_ ->]|(i & _ & ->)];
    rewrite notified_emit, delivered_emit; proj_state; cbn;
    by rewrite !app_nil_r.
Qed.

(** *** What every reachable state satisfies

    The subscriptions of the list are distinct objects of the heap, and
    every delivery so far went to an object of the heap. *)
Definition wf st : Prop :=
  NoDup (subscriptions (cl st)) ∧
  (∀ p, p ∈ subscriptions (cl st) → is_Some (subscriptionHeap st !! p)) ∧
  (∀ d, d ∈ delivered st → is_Some (subscriptionHeap st !! d.1)).

(** What one call does to the subscriptions: it keeps the heap objects, it
    puts on the list new objects only, and it delivers the notifications it
    emits to the subscriptions of the list. *)
Definition extends st st' : Prop :=
  (∀ p, is_Some (subscriptionHeap st !! p) → is_Some (subscriptionHeap st' !! p)) ∧
  (∀ p, p ∈ subscriptions (cl st') →
        p ∈ subscriptions (cl st) ∨ subscriptionHeap st !! p = None) ∧
  ∃ ns, notified st' = notified st ++ ns ∧
        delivered st' = delivered st ++ deliveries ns (subscriptions (cl st)).

(** A call that leaves list and heap as they are. *)
Definition same_subscriptions st st' : Prop :=
  subscriptions (cl st') = subscriptions (cl st) ∧
  subscriptionHeap st' = subscriptionHeap st ∧
  ∃ ns, notified st' = notified st ++ ns ∧
        delivered st' = delivered st ++ deliveries ns (subscriptions (cl st)).

Lemma WithAffiliate_frame k (f : Affiliate → Affiliate) st :
  same_subscriptions st (WithAffiliate k f st).
Proof.
  unfold same_subscriptions.
  rewrite WithAffiliate_eq, notified_emit, delivered_emit.
  rewrite notifications_of_locked_notify, deliveries_of_locked_notify.
  proj_state. eauto.
Qed.

Lemma DeleteAffiliate_frame k st :
  same_subscriptions st (DeleteAffiliate k st).
Proof.
  unfold same_subscriptions.
  rewrite DeleteAffiliate_eq, notified_emit, delivered_emit.
  rewrite notifications_of_locked_notify, deliveries_of_locked_notify.
  proj_state. eauto.
Qed.

Lemma List_frame order st : same_subscriptions st (List order st).2.
Proof.
  unfold same_subscriptions.
  rewrite List_spec. cbn [snd]. rewrite notified_emit, delivered_emit.
  proj_state. split_and!; [done..|]. by exists [].
Qed.

Lemma GarbageCollect_frame now order st :
  same_subscriptions st (GarbageCollect now order st).2.
Proof.
  destruct (GarbageCollect_effect now order st) as (_ & Hn & Hd & Hs & Hh & _).
  unfold same_subscriptions. eauto.
Qed.

Lemma same_subscriptions_extends st st' :
  same_subscriptions st st' → extends st st'.
Proof.
  intros (Hs & Hh & ns & Hn & Hd). unfold extends.
  rewrite Hs, Hh. split_and!; [done|by left|eauto].
Qed.

Lemma same_subscriptions_wf st st' :
  same_subscriptions st st' → wf st → wf st'.
Proof.
  intros (Hs & Hh & ns & Hn & Hd) (Hnd & Hheap & Hdel). unfold wf.
  rewrite Hs, Hh, Hd. split_and!; [done..|].
  intros d [?|Hin%deliveries_fst]%elem_of_app; [by apply Hdel|by apply Hheap].
Qed.

Lemma step_extends st st' : step st st' → extends st st'.
Proof.
  destruct 1.
  - apply same_subscriptions_extends, WithAffiliate_frame.
  - apply same_subscriptions_extends, List_frame.
  - apply same_subscriptions_extends, DeleteAffiliate_frame.
  - destruct (Subscribe_effect self ch0 order st)
      as (Hs & _ & Hfresh & _ & Hheap & _ & _ & _ & Hn & Hd).
    unfold extends. rewrite Hs, Hn, Hd. split_and!.
    + intros p Hp. rewrite Hheap; [done|]. intros ->.
      rewrite Hfresh in Hp. by destruct Hp.
    + intros p [Hp| ->%list_elem_of_singleton]%elem_of_app; [by left|by right].
    + exists []. by rewrite !app_nil_r.
  - destruct (unsubscribe_frame subscription st)
      as (_ & _ & Hh & _ & _ & Hn & Hd).
    unfold extends. rewrite Hh, Hn, Hd. split_and!; [done| |].
    + intros p Hp. left.
      destruct (unsubscribe_unfold subscription st) as [[_ Heq]|(i & Hi & Heq)];
        rewrite Heq in Hp; [done|].
      proj_state. rewrite (remove_at_perm _ _ _ Hi). by right.
    + exists []. by rewrite !app_nil_r.
  - apply same_subscriptions_extends, GarbageCollect_frame.
Qed.

Lemma step_wf st st' : step st st' → wf st → wf st'.
Proof.
  intros Hstep Hwf. destruct Hstep.
  - eapply same_subscriptions_wf; [apply WithAffiliate_frame|done].
  - eapply same_subscriptions_wf; [apply List_frame|done].
  - eapply same_subscriptions_wf; [apply DeleteAffiliate_frame|done].
  - destruct Hwf as (Hnd & Hheap & Hdel).
    destruct (Subscribe_effect self ch0 order st)
      as (Hs & _ & Hfresh & (e & Hnew & _) & Hheap' & _ & _ & _ & _ & Hd).
    assert (Hkeep : ∀ p, is_Some (subscriptionHeap st !! p) →
              is_Some (subscriptionHeap (Subscribe self ch0 order st).2 !! p)).
    { intros p Hp. rewrite Hheap'; [done|]. intros ->.
      rewrite Hfresh in Hp. by destruct Hp. }
    unfold wf. rewrite Hs, Hd. split_and!.
    + apply NoDup_app. split_and!; [done| |apply NoDup_singleton].
      intros p Hp ->%list_elem_of_singleton.
      apply Hheap in Hp as [? Hp]. by rewrite Hfresh in Hp.
    + intros p [Hp| ->%list_elem_of_singleton]%elem_of_app; [|by rewrite Hnew].
      by apply Hkeep, Hheap.
    + intros d Hin. by apply Hkeep, Hdel.
  - destruct Hwf as (Hnd & Hheap & Hdel).
    destruct (unsubscribe_frame subscription st) as (_ & _ & Hh & _ & _ & _ & Hd).
    unfold wf. rewrite Hh, Hd.
    destruct (unsubscribe_unfold subscription st) as [[_ ->]|(i & Hi & ->)];
      [done|].
    proj_state. pose proof (remove_at_perm _ _ _ Hi) as Hperm.
    rewrite Hperm in Hnd. apply NoDup_cons in Hnd as [_ Hnd].
    split_and!; [done| |done].
    intros p Hp. apply Hheap. rewrite Hperm. by right.
  - eapply same_subscriptions_wf; [apply GarbageCollect_frame|done].
Qed.

Lemma reachable_wf st : reachable st → wf st.
Proof.
  intros [k Hrtc]. revert st Hrtc. apply rtc_ind_r.
  - split_and!; [apply NoDup_nil_2|by intros p ?%elem_of_nil..].
  - intros st1 st2 _ Hstep IH. by eapply step_wf.
Qed.

Lemma reachable_step st st' : reachable st → step st st' → reachable st'.
Proof. intros [k Hrtc] Hstep. exists k. by eapply rtc_r. Qed.

Lemma reachable_rtc st st' : reachable st → rtc step st st' → reachable st'.
Proof. intros [k Hrtc] Hsteps. exists k. by etrans. Qed.

(** A subscription of the heap that is off the list stays off it, and no
    later call delivers to it. *)
Lemma rtc_step_off_list (s : ptr) st st' :
  rtc step st st' →
  is_Some (subscriptionHeap st !! s) → s ∉ subscriptions (cl st) →
  is_Some (subscriptionHeap st' !! s) ∧ (s ∉ subscriptions (cl st')) ∧
  ∃ later, delivered st' = delivered st ++ later ∧ ∀ d, d ∈ later → d.1 ≠ s.
Proof.
  intros Hrtc Hheap Hoff. revert st' Hrtc. apply rtc_ind_r.
  - split_and!; [done..|]. exists []. split; [by rewrite app_nil_r|].
    by intros d ?%elem_of_nil.
  - intros st1 st2 _ Hstep (Hh1 & Hoff1 & later & Hd1 & Hlater).
    apply step_extends in Hstep as (Hkeep & Hsubs & ns & _ & Hd2).
    split_and!.
    + by apply Hkeep.
    + intros [?|Hnone]%Hsubs; [done|]. rewrite Hnone in Hh1. by destruct Hh1.
    + exists (later ++ deliveries ns (subscriptions (cl st1))).
      split; [by rewrite Hd2, Hd1, app_assoc|].
      intros d [?|Hd%deliveries_fst]%elem_of_app; [by apply Hlater|].
      intros Heq. apply Hoff1. by rewrite <- Heq.
Qed.

(** A subscription of the heap that is on the list has been on it since it
    was put there, and every notification emitted in between was delivered
    to it, once and in order. *)
Lemma rtc_step_on_list (s : ptr) st st' :
  rtc step st st' → wf st →
  is_Some (subscriptionHeap st !! s) → s ∈ subscriptions (cl st') →
  s ∈ subscriptions (cl st) ∧
  ∃ emitted later,
    notified st' = notified st ++ emitted ∧
    delivered st' = delivered st ++ later ∧
    (filter (λ d, d.1 = s) later).*2 = emitted.
Proof.
  intros Hrtc Hwf Hheap.
  assert (wf st' ∧ is_Some (subscriptionHeap st' !! s) ∧
          (s ∈ subscriptions (cl st') →
           s ∈ subscriptions (cl st) ∧
           ∃ emitted later,
             notified st' = notified st ++ emitted ∧
             delivered st' = delivered st ++ later ∧
             (filter (λ d, d.1 = s) later).*2 = emitted)) as (_ & _ & Hgoal);
    [|done].
  revert st' Hrtc. apply rtc_ind_r.
  - split_and!; [done..|]. intros Hin. split; [done|]. exists [], [].
    by rewrite !app_nil_r.
  - intros st1 st2 _ Hstep (Hwf1 & Hh1 & IH).
    pose proof (step_wf _ _ Hstep Hwf1) as Hwf2.
    apply step_extends in Hstep as (Hkeep & Hsubs & ns & Hn2 & Hd2).
    split_and!; [done|by apply Hkeep|].
    intros [Hin1|Hnone]%Hsubs; [|rewrite Hnone in Hh1; by destruct Hh1].
    destruct (IH Hin1) as (Hin & emitted & later & Hn1 & Hd1 & Hf).
    split; [done|].
    exists (emitted ++ ns), (later ++ deliveries ns (subscriptions (cl st1))).
    split_and!.
    + by rewrite Hn2, Hn1, app_assoc.
    + by rewrite Hd2, Hd1, app_assoc.
    + rewrite filter_app, fmap_app, Hf. f_equal.
      apply deliveries_to; [by destruct Hwf1|done].
Qed.

(** C7. In a state the methods can build, [unsubscribe s] takes [s] off the
    list of subscriptions: a [notify] that follows delivers nothing to [s],
    at once or after any further calls of the methods when [s] is a
    subscription [Subscribe] made.  The other subscriptions of the list are
    the same as before, each still once.  A second [unsubscribe s], or one
    for an [s] that is not on the list, leaves the cluster, the list
    included, as it is; and no call of [unsubscribe] touches the map of
    affiliates or the heap, or delivers anything. *)
Theorem unsubscribe_spec (s : ptr) st :
  reachable st →
  let st' := unsubscribe s st in
  (s ∉ subscriptions (cl st')) ∧
  (∀ p, p ≠ s → p ∈ subscriptions (cl st') ↔ p ∈ subscriptions (cl st)) ∧
  NoDup (subscriptions (cl st')) ∧
  (∀ ns, ∃ later,
     delivered (notify ns st') = delivered st' ++ later ∧
     ∀ d, d ∈ later → d.1 ≠ s) ∧
  (is_Some (subscriptionHeap st !! s) →
   ∀ st'' ns, rtc step st' st'' →
     ∃ later,
       delivered (notify ns st'') = delivered st' ++ later ∧
       ∀ d, d ∈ later → d.1 ≠ s) ∧
  cl (unsubscribe s st') = cl st' ∧
  ((s ∉ subscriptions (cl st)) → cl st' = cl st) ∧
  affiliates (cl st') = affiliates (cl st) ∧
  subscriptionHeap st' = subscriptionHeap st ∧
  chanHeap st' = chanHeap st ∧
  delivered st' = delivered st.
Proof.
  intros [Hnd Hheap]%reachable_wf st'.
  destruct (unsubscribe_frame s st) as (Ha & _ & Hh & Hc & _ & _ & Hd).
  fold st' in Ha, Hh, Hc, Hd.
  assert (Hoff : s ∉ subscriptions (cl st')).
  { destruct (decide (s ∈ subscriptions (cl st))) as [Hin|Hnin].
    - pose proof (unsubscribe_perm s st Hin) as Hperm. fold st' in Hperm.
      rewrite Hperm in Hnd. by apply NoDup_cons in Hnd as [? _].
    - subst st'. by rewrite unsubscribe_off_list. }
  assert (Hnd' : NoDup (subscriptions (cl st'))).
  { destruct (decide (s ∈ subscriptions (cl st))) as [Hin|Hnin].
    - pose proof (unsubscribe_perm s st Hin) as Hperm. fold st' in Hperm.
      rewrite Hperm in Hnd. by apply NoDup_cons in Hnd as [_ ?].
    - subst st'. by rewrite unsubscribe_off_list. }
  split_and!; try done.
  - intros p Hp.
    destruct (decide (s ∈ subscriptions (cl st))) as [Hin|Hnin].
    + pose proof (unsubscribe_perm s st Hin) as Hperm. fold st' in Hperm.
      rewrite Hperm, elem_of_cons. split; [by right|by intros [?|?]].
    + subst st'. by rewrite unsubscribe_off_list.
  - intros ns. rewrite notify_spec, delivered_emit, deliveries_of_notify_events.
    eexists. split; [done|].
    intros d Hin%deliveries_fst Heq. apply Hoff. by rewrite <- Heq.
  - intros Hs st'' ns Hrtc. rewrite <- Hh in Hs.
    destruct (rtc_step_off_list s st' st'' Hrtc Hs Hoff)
      as (_ & Hoff' & later & Hd' & Hlater).
    rewrite notify_spec, delivered_emit, deliveries_of_notify_events.
    exists (later ++ deliveries ns (subscriptions (cl st''))).
    split; [by rewrite Hd', app_assoc|].
    intros d [?|Hin%deliveries_fst]%elem_of_app; [by apply Hlater|].
    intros Heq. apply Hoff'. by rewrite <- Heq.
  - by apply unsubscribe_off_list.
  - intros Hnin. subst st'. by apply unsubscribe_off_list.
Qed.

(** *** A subscription and the writes around it, one call at a time *)

(** X13. With the calls of the methods taken one after the other: the snapshot
    of [Subscribe] is what [List] returns in the state of the call, the new
    subscription was handed nothing before, and as long as it is on the
    list it is handed every notification emitted afterwards, once and in
    the order of emission. *)
Lemma snapshot_then_stream (self ch : ptr) order st st2 :
  reachable st →
  let snapshot := (Subscribe self ch order st).1.1 in
  let s := (Subscribe self ch order st).1.2 in
  let st1 := (Subscribe self ch order st).2 in
  rtc step st1 st2 → s ∈ subscriptions (cl st2) →
  snapshot = (List order st).1 ∧
  (∀ d, d ∈ delivered st1 → d.1 ≠ s) ∧
  ∃ emitted later,
    notified st2 = notified st1 ++ emitted ∧
    delivered st2 = delivered st1 ++ later ∧
    (filter (λ d, d.1 = s) later).*2 = emitted.
Proof.
  intros Hreach snapshot s st1 Hrtc Hin.
  pose proof (reachable_wf st Hreach) as (Hnd & Hheap & Hdel).
  assert (Hwf1 : wf st1).
  { eapply step_wf; [apply step_Subscribe|by apply reachable_wf]. }
  destruct (Subscribe_effect self ch order st)
    as (_ & _ & Hfresh & (e & Hnew & _) & _ & _ & _ & _ & _ & Hd).
  fold s st1 in Hfresh, Hnew, Hd.
  split_and!; [apply Subscribe_snapshot| |].
  - intros d Hd1 Heq. rewrite Hd in Hd1. apply Hdel in Hd1 as [x Hx].
    rewrite Heq, Hfresh in Hx. done.
  - assert (Hs1 : is_Some (subscriptionHeap st1 !! s)) by by rewrite Hnew.
    by destruct (rtc_step_on_list s st1 st2 Hrtc Hwf1 Hs1 Hin) as [_ ?].
Qed.

(** *** Lock discipline

    A run of the events from the mutexes held: a [Lock] needs its mutex
    free, an [Unlock] needs it held, and a call of [subscription.notify]
    needs the subscription mutex free. *)
Definition held_of (h : bool * bool) (mu : Mutex) : bool :=
  match mu with affiliatesMu => h.1 | subscriptionsMu => h.2 end.

Definition set_held (h : bool * bool) (mu : Mutex) (b : bool) : bool * bool :=
  match mu with affiliatesMu => (b, h.2) | subscriptionsMu => (h.1, b) end.

Fixpoint run_locks (h : bool * bool) es : option (bool * bool) :=
  match es with
  | [] => Some h
  | EvLock mu :: es =>
      if held_of h mu then None else run_locks (set_held h mu true) es
  | EvUnlock mu :: es =>
      if held_of h mu then run_locks (set_held h mu false) es else None
  | EvNotify _ :: es => run_locks h es
  | EvDeliver _ _ :: es =>
      if held_of h subscriptionsMu then None else run_locks h es
  end.

Lemma run_locks_app h es1 es2 :
  run_locks h (es1 ++ es2) = run_locks h es1 ≫= λ h', run_locks h' es2.
Proof.
  revert h. induction es1 as [|e es1 IH]; intros h; [done|].
  destruct e as [mu|mu|n|s n]; cbn [app run_locks];
    try destruct (held_of h mu); try destruct (held_of h subscriptionsMu);
    by rewrite ?IH.
Qed.

Lemma run_notify_events (a : bool) ns subs :
  run_locks (a, false) (notify_events ns subs) = Some (a, false).
Proof.
  unfold notify_events. rewrite !run_locks_app.
  assert (run_locks (a, false) (EvNotify <$> ns) = Some (a, false)) as ->.
  { induction ns as [|n ns IH]; [done|]. exact IH. }
  cbn [mbind option_bind run_locks held_of set_held fst snd].
  generalize (deliveries ns subs). intros ds.
  induction ds as [|d ds IH]; [done|]. exact IH.
Qed.

Lemma run_call_notify (a : bool) ns subs :
  run_locks (a, false) (call_notify ns subs) = Some (a, false).
Proof. destruct ns; [done|]. apply run_notify_events. Qed.

Lemma run_locked_notify ns subs :
  run_locks (false, false) (locked_notify ns subs) = Some (false, false).
Proof.
  unfold locked_notify. cbn [app run_locks held_of set_held fst snd].
  by rewrite run_locks_app, run_call_notify.
Qed.

Lemma run_sweep_events now m subs ks :
  run_locks (true, false) (sweep_events now m subs ks) = Some (true, false).
Proof.
  induction ks as [|k ks IH]; [done|].
  by rewrite sweep_events_cons, run_locks_app, run_call_notify.
Qed.

(** The events of one call, in a run from both mutexes free: no [Lock] of
    a held mutex, no [Unlock] of a free one, no delivery under the
    subscription mutex, and both mutexes free at the end. *)
Lemma step_lock_discipline st st' :
  step st st' →
  ∃ es, trace st' = trace st ++ es ∧
        run_locks (false, false) es = Some (false, false).
Proof.
  destruct 1.
  - rewrite WithAffiliate_eq. eexists. split; [done|]. apply run_locked_notify.
  - rewrite List_spec. by eexists.
  - rewrite DeleteAffiliate_eq. eexists. split; [done|]. apply run_locked_notify.
  - destruct (Subscribe_effect self ch0 order st)
      as (_ & _ & _ & _ & _ & _ & _ & Ht & _). by eexists.
  - destruct (unsubscribe_frame subscription st) as (_ & _ & _ & _ & Ht & _).
    by eexists.
  - rewrite GarbageCollect_eq. eexists. split; [done|].
    cbn [app run_locks held_of set_held fst snd].
    by rewrite run_locks_app, run_sweep_events.
Qed.

(** X14. In every state the methods can build, the trace is a run that
    respects the mutexes: from both free, no [Lock] ever meets a mutex that
    is held (no call blocks on a lock the run already holds), no [Unlock]
    meets a free one, no [subscription.notify] is called with the
    subscription mutex held, and both mutexes are free when the last call
    has returned. *)
Lemma reachable_lock_discipline st :
  reachable st → run_locks (false, false) (trace st) = Some (false, false).
Proof.
  intros [k Hrtc]. revert st Hrtc. apply rtc_ind_r; [done|].
  intros st1 st2 _ (es & -> & Hes)%step_lock_discipline IH.
  by rewrite run_locks_app, IH.
Qed.

(** ** More on the cluster *)

(** *** Invariants of a run *)

(** Which calls touch the heaps: [Subscribe] and no other. *)
Lemma step_heaps st st' :
  step st st' →
  (subscriptionHeap st' = subscriptionHeap st ∧ chanHeap st' = chanHeap st ∧
   id (cl st') = id (cl st)) ∨
  (∃ self ch order, st' = (Subscribe self ch order st).2).
Proof.
  destruct 1.
  - left. by rewrite WithAffiliate_eq.
  - left. by rewrite List_spec.
  - left. by rewrite DeleteAffiliate_eq.
  - right. eauto.
  - left. by destruct (unsubscribe_frame subscription st) as (_ & -> & -> & -> & _).
  - left. rewrite GarbageCollect_eq. done.
Qed.

(** The objects of the heap: none at [nil], each with an error channel of
    its own, of capacity one. *)
Definition heap_wf st : Prop :=
  subscriptionHeap st !! nil = None ∧
  (∀ p sub, subscriptionHeap st !! p = Some sub →
     errCh sub ≠ nil ∧ ∃ c, chanHeap st !! errCh sub = Some c ∧ chan_cap c = 1) ∧
  (∀ p q sp sq, subscriptionHeap st !! p = Some sp →
     subscriptionHeap st !! q = Some sq → errCh sp = errCh sq → p = q).

Lemma step_heap_wf st st' : step st st' → heap_wf st → heap_wf st'.
Proof.
  intros [(Hh & Hc & _)|(self & ch & order & ->)]%step_heaps (Hnil & Hch & Hinj).
  { unfold heap_wf. by rewrite Hh, Hc. }
  destruct (Subscribe_effect self ch order st)
    as (_ & Hnn & Hfresh & (e & Hnew & Hen & Hefresh & Hec & Hcold) & Hold & _).
  set (s := (Subscribe self ch order st).1.2) in *.
  set (st' := (Subscribe self ch order st).2) in *.
  assert (Hlook : ∀ p sub, subscriptionHeap st' !! p = Some sub →
            (p = s ∧ sub = {| cluster := self; errCh := e; ch := ch |}) ∨
            (p ≠ s ∧ subscriptionHeap st !! p = Some sub)).
  { intros p sub Hp. destruct (decide (p = s)) as [->|Hne].
    - left. rewrite Hnew in Hp. by injection Hp as <-.
    - right. by rewrite Hold in Hp. }
  assert (Hne_e : ∀ p sub, subscriptionHeap st !! p = Some sub → errCh sub ≠ e).
  { intros p sub Hp Heq. destruct (Hch p sub Hp) as (_ & c & Hc & _).
    rewrite Heq, Hefresh in Hc. done. }
  split_and!.
  - rewrite Hold; [done|]. by intros Heq; apply Hnn.
  - intros p sub [[-> ->]|[Hne Hp]]%Hlook.
    + split; [done|]. eexists. by split.
    + destruct (Hch p sub Hp) as (Hn & c & Hc & Hcap). split; [done|].
      exists c. split; [|done]. rewrite Hcold; [done|]. by eapply Hne_e.
  - intros p q sp sq [[-> ->]|[Hnp Hp]]%Hlook [[-> ->]|[Hnq Hq]]%Hlook Heq;
      [done| | |by eapply Hinj].
    + exfalso. by eapply Hne_e.
    + exfalso. by eapply Hne_e.
Qed.

(** X1. In every state that calls of the methods build from
    [NewCluster(k)]: the identifier is still [k]; the list of subscriptions
    has no duplicate and no nil, and every subscription on it is an object
    of the heap; every object of the heap has an error channel of capacity
    one that it shares with no other; and every delivery so far was made to
    an object of the heap. *)
Theorem cluster_invariants (k : string) st :
  rtc step (initial k) st →
  id (cl st) = k ∧
  NoDup (subscriptions (cl st)) ∧
  (nil ∉ subscriptions (cl st)) ∧
  (∀ p, p ∈ subscriptions (cl st) → is_Some (subscriptionHeap st !! p)) ∧
  (∀ p sub, subscriptionHeap st !! p = Some sub →
     errCh sub ≠ nil ∧ ∃ c, chanHeap st !! errCh sub = Some c ∧ chan_cap c = 1) ∧
  (∀ p q sp sq, subscriptionHeap st !! p = Some sp →
     subscriptionHeap st !! q = Some sq → errCh sp = errCh sq → p = q) ∧
  (∀ d, d ∈ delivered st → is_Some (subscriptionHeap st !! d.1)).
Proof.
  intros Hrtc.
  assert (Hwf : wf st) by (apply reachable_wf; by exists k).
  assert (Hmore : id (cl st) = k ∧ heap_wf st).
  { revert st Hrtc Hwf. apply (rtc_ind_r (λ st, wf st → id (cl st) = k ∧ heap_wf st)).
    - intros _. split; [done|]. split_and!; [done|by intros ???|by intros ?????].
    - intros st1 st2 Hrtc Hstep IH _.
      assert (Hwf1 : wf st1) by (apply reachable_wf; by exists k).
      destruct (IH Hwf1) as (Hid & Hhw). split; [|by eapply step_heap_wf].
      apply step_heaps in Hstep as [(_ & _ & ->)|(self & ch & order & ->)];
        [done|].
      by destruct (Subscribe_effect self ch order st1)
        as (_ & _ & _ & _ & _ & _ & -> & _). }
  destruct Hwf as (Hnd & Hheap & Hdel).
  destruct Hmore as (Hid & Hnil & Hch & Hinj).
  split_and!; try done.
  intros Hin. apply Hheap in Hin as [x Hx]. by rewrite Hnil in Hx.
Qed.

(** X2. No method rewrites or frees a subscription: an object of the heap
    is the same object, with the same fields, after any further calls. *)
Theorem subscription_objects_are_stable (p : ptr) (sub : Subscription) st st' :
  rtc step st st' →
  subscriptionHeap st !! p = Some sub →
  subscriptionHeap st' !! p = Some sub.
Proof.
  intros Hrtc Hp. revert st' Hrtc. apply rtc_ind_r; [done|].
  intros st1 st2 _ [(-> & _)|(self & ch & order & ->)]%step_heaps IH; [done|].
  destruct (Subscribe_effect self ch order st1)
    as (_ & _ & Hfresh & _ & Hold & _).
  rewrite Hold; [done|]. intros ->. by rewrite Hfresh in IH.
Qed.

(** *** GarbageCollect and the order of the range *)

Lemma cluster_eq (c1 c2 : Cluster Affiliate) :
  affiliates c1 = affiliates c2 → id c1 = id c2 →
  subscriptions c1 = subscriptions c2 → c1 = c2.
Proof. destruct c1, c2. simpl. by intros -> -> ->. Qed.

Lemma GarbageCollect_id now order st :
  id (cl (GarbageCollect now order st).2) = id (cl st).
Proof. by rewrite GarbageCollect_eq. Qed.

Lemma notes_Permutation now m (ks1 ks2 : list string) :
  ks1 ≡ₚ ks2 → notes now m ks1 ≡ₚ notes now m ks2.
Proof. intros Hp. unfold notes. by rewrite Hp. Qed.

(** X3. The order in which [GarbageCollect] ranges over the map does not
    show in its outcome: two orders give the same cluster and the same
    result, and the same notifications up to their order. *)
Theorem GarbageCollect_order_independent now (order1 order2 : RangeOrder Affiliate) st :
  let r1 := GarbageCollect now order1 st in
  let r2 := GarbageCollect now order2 st in
  cl r1.2 = cl r2.2 ∧
  r1.1 = r2.1 ∧
  ∃ emitted1 emitted2,
    notified r1.2 = notified st ++ emitted1 ∧
    notified r2.2 = notified st ++ emitted2 ∧
    emitted1 ≡ₚ emitted2.
Proof.
  intros r1 r2.
  destruct (GarbageCollect_effect now order1 st) as (Hm1 & Hn1 & _ & Hs1 & _ & _ & He1).
  destruct (GarbageCollect_effect now order2 st) as (Hm2 & Hn2 & _ & Hs2 & _ & _ & He2).
  fold r1 in Hm1, Hn1, Hs1, He1. fold r2 in Hm2, Hn2, Hs2, He2.
  assert (Hmap : affiliates (cl r1.2) = affiliates (cl r2.2)).
  { apply map_eq. intros k. by rewrite Hm1, Hm2. }
  split_and!.
  - apply cluster_eq; [done| |by rewrite Hs1, Hs2].
    subst r1 r2. by rewrite !GarbageCollect_id.
  - by rewrite He1, He2, Hmap.
  - eexists _, _. split_and!; [done..|].
    apply notes_Permutation.
    by rewrite (range_of_perm order1), (range_of_perm order2).
Qed.

(** *** Subscribe and unsubscribe *)

Lemma first_index_app_last (l : list ptr) (s : ptr) (k : nat) :
  s ∉ l → first_index (l ++ [s]) s k = Some (k + length l).
Proof.
  revert k. induction l as [|p l IH]; intros k Hs; simpl.
  - rewrite decide_True by done. f_equal. lia.
  - apply not_elem_of_cons in Hs as [Hne Hs].
    rewrite decide_False by done. rewrite IH by done. f_equal. lia.
Qed.

Lemma remove_at_last (l : list ptr) (s : ptr) :
  remove_at (length l) (l ++ [s]) = l.
Proof.
  unfold remove_at. rewrite length_app. simpl.
  replace (length l + 1 - 1) with (length l) by lia.
  rewrite !take_insert_ge by done. apply take_app_length.
Qed.

(** X4. [unsubscribe] undoes [Subscribe]: in a state the methods can build,
    subscribing and then unsubscribing the subscription returned leaves the
    cluster, the list of subscriptions in its order included, as it was
    before the two calls. *)
Theorem Subscribe_unsubscribe (self ch : ptr) order st :
  reachable st →
  let s := (Subscribe self ch order st).1.2 in
  let st1 := (Subscribe self ch order st).2 in
  cl (unsubscribe s st1) = cl st.
Proof.
  intros (Hnd & Hheap & _)%reachable_wf s st1.
  destruct (Subscribe_effect self ch order st)
    as (Hs & _ & Hfresh & _ & _ & Ha & Hid & _). fold s st1 in Hs, Hfresh, Ha, Hid.
  assert (Hoff : s ∉ subscriptions (cl st)).
  { intros [x Hx]%Hheap. by rewrite Hfresh in Hx. }
  unfold unsubscribe, Lock, Unlock. rewrite !cl_emit, Hs.
  rewrite first_index_app_last by done. cbn [Nat.add].
  rewrite set_subscriptions_emit, !cl_emit. proj_state.
  rewrite remove_at_last, Ha, Hid. by destruct (cl st).
Qed.

(** X5. [unsubscribe s], in any state: when [s] is on the list, the list
    loses one occurrence of [s], the first, and nothing else; the last
    element takes the slot of that occurrence and every other element keeps
    its slot.  When [s] is not on the list the list stays as it is. *)
Theorem unsubscribe_removes_first (s : ptr) st :
  let l := subscriptions (cl st) in
  let l' := subscriptions (cl (unsubscribe s st)) in
  (s ∈ l →
     ∃ i, l !! i = Some s ∧ (∀ j, j < i → l !! j ≠ Some s) ∧
          l ≡ₚ s :: l' ∧
          S (length l') = length l ∧
          ∀ j, j < length l' →
               l' !! j = if decide (j = i) then l !! length l' else l !! j) ∧
  ((s ∉ l) → l' = l).
Proof.
  intros l l'. subst l'. unfold unsubscribe, Lock, Unlock.
  rewrite !cl_emit. fold l.
  destruct (first_index l s 0) as [i|] eqn:Hf.
  - split; [|intros Hn; apply (first_index_None l s 0) in Hn; congruence].
    intros _. exists i. rewrite set_subscriptions_emit, !cl_emit. proj_state.
    assert (Hi : l !! i = Some s).
    { apply first_index_Some in Hf as [_ Hi]. by rewrite Nat.sub_0_r in Hi. }
    pose proof (lookup_lt_Some _ _ _ Hi) as Hlt.
    pose proof (remove_at_perm l i s Hi) as Hperm.
    assert (Hlen : S (length (remove_at i l)) = length l).
    { by rewrite Hperm at 2. }
    split_and!; [done| |done|done|].
    + assert (Hmin : ∀ (l0 : list ptr) k i0, first_index l0 s k = Some i0 →
                ∀ j, j < i0 - k → l0 !! j ≠ Some s).
      { clear. induction l0 as [|p l0 IH]; intros k i0; simpl; [done|].
        case_decide as Hp.
        - intros [= <-] j Hj. lia.
        - intros Hfi [|j] Hj; simpl; [by intros [= ?]|].
          apply (IH (S k) i0 Hfi). lia. }
      intros j Hj. apply (Hmin l 0 i Hf). lia.
    + set (n := length (remove_at i l)) in *. clearbody n.
      intros j Hj. unfold remove_at.
      replace (length l - 1) with n by lia.
      rewrite lookup_take_lt by done.
      rewrite list_lookup_insert_ne by lia.
      destruct (l !! n) as [x|] eqn:Hx.
      2:{ apply lookup_ge_None in Hx. lia. }
      simpl. case_decide as Hji.
      * subst j. by rewrite list_lookup_insert_eq by lia.
      * by rewrite list_lookup_insert_ne by done.
  - apply first_index_None in Hf. split; [done|]. intros _. by proj_state.
Qed.

(** *** Writes one after the other *)

Lemma notified_set_affiliates m st : notified (set_affiliates m st) = notified st.
Proof. done. Qed.

Lemma delivered_set_affiliates m st :
  delivered (set_affiliates m st) = delivered st.
Proof. done. Qed.

Lemma WithAffiliate_written id (f : Affiliate → Affiliate) st :
  affiliates (cl (WithAffiliate id f st)) !! id =
    Some (written id f (affiliates (cl st))) ∧
  ∀ k, k ≠ id →
    affiliates (cl (WithAffiliate id f st)) !! k = affiliates (cl st) !! k.
Proof.
  rewrite WithAffiliate_eq. proj_state. split.
  - apply lookup_insert_eq.
  - intros k Hk. by apply lookup_insert_ne.
Qed.

(** X6. What [WithAffiliate] writes, [List] shows: after [WithAffiliate id f]
    the export of the affiliate stored under [id] is in the result of
    [List], which has one element more than before when [id] was not in the
    map and as many as before when it was. *)
Theorem WithAffiliate_then_List id (f : Affiliate → Affiliate) order st :
  let m := affiliates (cl st) in
  let st' := WithAffiliate id f st in
  Export (written id f m) ∈ (List order st').1 ∧
  length (List order st').1 =
    match m !! id with Some _ => size m | None => S (size m) end.
Proof.
  intros m st'. split.
  - apply List_elem_of. exists id, (written id f m). split; [|done].
    apply WithAffiliate_written.
  - rewrite List_spec. cbn [fst]. rewrite length_fmap, range_length.
    subst st'. rewrite WithAffiliate_eq. proj_state. fold m.
    destruct (m !! id) as [a|] eqn:Hm.
    + rewrite map_size_insert_Some; [done|]. by rewrite Hm.
    + by rewrite map_size_insert_None.
Qed.

(** X7. A write and the deletion that follows it: [WithAffiliate id f] for
    an [id] that is not in the map and then [DeleteAffiliate id] give back
    the map of before; two notifications are emitted, the new affiliate and
    then its deletion, and a subscription on a list without duplicates is
    handed exactly these two, in this order. *)
Theorem WithAffiliate_then_DeleteAffiliate id (f : Affiliate → Affiliate) st :
  let m := affiliates (cl st) in
  let st' := DeleteAffiliate id (WithAffiliate id f st) in
  let emitted :=
    [Notification.Build id (Some (Export (f (NewAffiliate id))));
     Notification.Build id None] in
  m !! id = None →
  cl st' = cl st ∧
  notified st' = notified st ++ emitted ∧
  ∃ later, delivered st' = delivered st ++ later ∧
    ∀ s, NoDup (subscriptions (cl st)) → s ∈ subscriptions (cl st) →
         (filter (λ d, d.1 = s) later).*2 = emitted.
Proof.
  intros m st' emitted Hm. subst st' emitted.
  rewrite DeleteAffiliate_eq, WithAffiliate_eq. proj_state. fold m.
  rewrite !notified_emit, !delivered_emit.
  rewrite notified_set_affiliates, delivered_set_affiliates.
  rewrite !notified_emit, !delivered_emit.
  rewrite !notifications_of_locked_notify, !deliveries_of_locked_notify.
  unfold deleted_notes, written_notes, written.
  rewrite lookup_insert_eq, Hm, delete_insert_id by done.
  split_and!.
  - unfold m. by destruct st as [[] ? ? ?].
  - by rewrite <- app_assoc.
  - eexists. split; [by rewrite <- app_assoc|].
    intros s Hnd Hs. rewrite filter_app, fmap_app.
    by rewrite !deliveries_to.
Qed.

(** X8. An affiliate that was deleted starts anew: [WithAffiliate id f]
    after [DeleteAffiliate id] stores [f] of a new affiliate, whatever was
    stored under [id] before the deletion, and emits its notification
    whether or not the result is flagged changed. *)
Theorem DeleteAffiliate_then_WithAffiliate id (f : Affiliate → Affiliate) st :
  let st' := WithAffiliate id f (DeleteAffiliate id st) in
  let a' := f (NewAffiliate id) in
  affiliates (cl st') = <[id := a']> (affiliates (cl st)) ∧
  ∃ before,
    notified st' =
      notified st ++ before ++ [Notification.Build id (Some (Export a'))] ∧
    before = match affiliates (cl st) !! id with
             | Some _ => [Notification.Build id None]
             | None => []
             end.
Proof.
  intros st' a'. subst st' a'.
  rewrite WithAffiliate_eq, DeleteAffiliate_eq. proj_state.
  rewrite notified_emit, notified_set_affiliates, notified_emit.
  rewrite !notifications_of_locked_notify.
  unfold written_notes, written, deleted_notes.
  rewrite lookup_delete_eq, insert_delete_eq.
  split; [done|]. eexists. split; [|done]. by rewrite <- app_assoc.
Qed.

(** X15. Deleting twice is deleting once: a second [DeleteAffiliate id]
    right after the first leaves the cluster as the first left it, emits
    no notification and delivers nothing. *)
Theorem DeleteAffiliate_twice id st :
  let st1 := DeleteAffiliate id st in
  let st2 := DeleteAffiliate id st1 in
  cl st2 = cl st1 ∧ notified st2 = notified st1 ∧ delivered st2 = delivered st1.
Proof.
  intros st1 st2. subst st2.
  assert (Hgone : affiliates (cl st1) !! id = None).
  { subst st1. rewrite DeleteAffiliate_eq. proj_state. apply lookup_delete_eq. }
  rewrite DeleteAffiliate_eq, notified_emit, delivered_emit.
  rewrite notifications_of_locked_notify, deliveries_of_locked_notify.
  unfold deleted_notes. rewrite Hgone, (delete_id _ _ Hgone).
  rewrite set_affiliates_id, cl_emit. unfold deliveries. simpl.
  by rewrite !app_nil_r.
Qed.

Lemma notes_nil now m (ks : list string) :
  (∀ k a, m !! k = Some a → reports_change now a = false) →
  notes now m ks = [].
Proof.
  intros Hq. induction ks as [|k ks IH]; [done|].
  rewrite notes_cons, IH, app_nil_r. unfold note.
  destruct (m !! k) as [a|] eqn:Hk; [|done]. by rewrite (Hq k a Hk).
Qed.

(** X16. A sweep that finds nothing to expire changes nothing: when no
    affiliate of the map asks for removal, reports a change or is altered
    by its own sweep, [GarbageCollect] leaves the cluster as it was, emits
    no notification, delivers nothing, and returns whether the map was
    empty. *)
Theorem GarbageCollect_quiet now order st :
  let m := affiliates (cl st) in
  let st' := (GarbageCollect now order st).2 in
  (∀ k a, m !! k = Some a →
     removes now a = false ∧ reports_change now a = false ∧
     after_sweep now a = a) →
  cl st' = cl st ∧ notified st' = notified st ∧ delivered st' = delivered st ∧
  ((GarbageCollect now order st).1 = true ↔ m = ∅).
Proof.
  intros m st' Hq.
  destruct (GarbageCollect_effect now order st)
    as (Hm & Hn & Hd & Hs & _ & _ & He). fold m st' in Hm, Hn, Hd, Hs, He.
  assert (Hnotes : notes now m (order m).*1 = []).
  { apply notes_nil. intros k a Hk. by destruct (Hq k a Hk) as (_ & ? & _). }
  assert (Hmap : affiliates (cl st') = m).
  { apply map_eq. intros k. rewrite Hm.
    destruct (m !! k) as [a|] eqn:Hk; [|done].
    destruct (Hq k a Hk) as (Hr & _ & Ha). simpl. unfold keep.
    by rewrite Hr, Ha. }
  split_and!.
  - apply cluster_eq; [done| |done]. subst st'. apply GarbageCollect_id.
  - by rewrite Hn, Hnotes, app_nil_r.
  - rewrite Hd, Hnotes. unfold deliveries. simpl. by rewrite app_nil_r.
  - rewrite He, Hmap, bool_decide_eq_true. apply map_size_empty_iff.
Qed.

(** X17. What [GarbageCollect] returns, in terms of the map it was called
    on: true exactly when every affiliate of the map asked for removal
    (none at all included); and the map never has more entries after the
    sweep than before. *)
Theorem GarbageCollect_empty_iff now order st :
  let m := affiliates (cl st) in
  let st' := (GarbageCollect now order st).2 in
  ((GarbageCollect now order st).1 = true ↔
   ∀ k a, m !! k = Some a → removes now a = true) ∧
  (∀ k, is_Some (affiliates (cl st') !! k) → is_Some (m !! k)) ∧
  size (affiliates (cl st')) ≤ size m.
Proof.
  intros m st'.
  destruct (GarbageCollect_effect now order st)
    as (Hm & _ & _ & _ & _ & _ & He). fold m st' in Hm, He.
  assert (Hsub : ∀ k, is_Some (affiliates (cl st') !! k) → is_Some (m !! k)).
  { intros k. rewrite Hm. destruct (m !! k); [done|]. by intros [? ?]. }
  split_and!; [|done|].
  - rewrite He, bool_decide_eq_true, map_size_empty_iff. split.
    + intros Hempty k a Hk. pose proof (Hm k) as Hk'.
      rewrite Hempty, lookup_empty, Hk in Hk'. simpl in Hk'. unfold keep in Hk'.
      by destruct (removes now a).
    + intros Hall. apply map_eq. intros k. rewrite Hm, lookup_empty.
      destruct (m !! k) as [a|] eqn:Hk; [|done]. simpl. unfold keep.
      by rewrite (Hall k a Hk).
  - rewrite <- (size_dom (affiliates (cl st'))), <- (size_dom m).
    apply subseteq_size. intros k. rewrite !elem_of_dom. apply Hsub.
Qed.

End cluster_facts.

(** ** The list endpoint *)

Section handler_facts.
Import ListEndpoint.
Context {UUID Node DB : Type}.
Context (uuid_Parse : string → UUID + error).
Context (nodeDB_List : string → DB → (list Node + error) * DB).

Abbreviation handler := (list_handler uuid_Parse nodeDB_List).

(** The store is called when the log of events has a [StoreList]. *)
Definition calls_store (events : list event) : Prop :=
  ∃ c, StoreList c ∈ events.

(** C8. [GET /:cluster]: an empty path parameter and one that [uuid.Parse]
    rejects are answered with status 400, the store not called and left as
    it was; a parameter that passes, for which the store answers with an
    error that is [ErrNotFound], is answered with status 404; and the list
    of nodes is the answer only when the parameter is not empty, parses and
    the store returned that list without an error.  (An error of the store
    that is not [ErrNotFound] is answered with status 500.) *)
Theorem list_handler_spec (cluster : string) (db : DB) :
  let events := (handler cluster db).1.1 in
  let resp := (handler cluster db).1.2 in
  let db' := (handler cluster db).2 in
  (cluster = "" ∨ (∃ err, uuid_Parse cluster = inr err) →
     resp = SendStatus StatusBadRequest ∧ ¬ calls_store events ∧ db' = db) ∧
  (cluster ≠ "" → (∃ u, uuid_Parse cluster = inl u) →
     ∀ e, (nodeDB_List cluster db).1 = inr e →
       (errors_Is_ErrNotFound e = true → resp = SendStatus StatusNotFound) ∧
       (errors_Is_ErrNotFound e = false →
          resp = SendStatus StatusInternalServerError)) ∧
  (∀ l, resp = JSON l →
     cluster ≠ "" ∧ (∃ u, uuid_Parse cluster = inl u) ∧
     nodeDB_List cluster db = (inl l, db') ∧
     events = [StoreList cluster; LogInfo "listing cluster nodes"]) ∧
  (cluster ≠ "" → (∃ u, uuid_Parse cluster = inl u) →
     ∀ l, (nodeDB_List cluster db).1 = inl l → resp = JSON l).
Proof.
  intros events resp db'. subst events resp db'.
  unfold list_handler, validateClusterID, calls_store.
  destruct (decide (cluster = "")) as [->|Hne]; simpl.
  { split_and!; try done.
    intros _. split_and!; [done| |done].
    intros [c [= ]%list_elem_of_singleton]. }
  destruct (uuid_Parse cluster) as [u|err] eqn:Hparse; simpl.
  2:{ split_and!; try done.
      - intros _. split_and!; [done| |done].
        intros [c [= ]%list_elem_of_singleton].
      - by intros _ [u [= ]].
      - by intros _ [u [= ]]. }
  destruct (nodeDB_List cluster db) as [[l|e] db1] eqn:Hlist; simpl.
  - split_and!.
    + intros [?|[err [= ]]]. done.
    + by intros _ _ e [= ].
    + intros l' [= <-]. split_and!; eauto.
    + by intros _ _ l' [= <-].
  - destruct (errors_Is_ErrNotFound e) eqn:His; simpl.
    + split_and!.
      * intros [?|[err [= ]]]. done.
      * intros _ _ e' [= <-]. split; [done|]. by rewrite His.
      * intros l [= ].
      * by intros _ _ l [= ].
    + split_and!.
      * intros [?|[err [= ]]]. done.
      * intros _ _ e' [= <-]. split; [|done]. by rewrite His.
      * intros l [= ].
      * by intros _ _ l [= ].
Qed.

End handler_facts.

(** ** The node endpoints *)

Section node_handler_facts.
Import ListEndpoint NodeEndpoints.
Context {IP : Type} (IsZero : IP → bool) (IP_String : IP → string).
Context {UUID Key : Type}.
Context (uuid_Parse : string → UUID + error).
Context (wg_ParseKey : string → Key + error).
Context {Body : Type}.
Context (BodyParser_addresses : Body → list (option (Address IP)) + error).
Context (BodyParser_node : Body → Node IP + error).
Context {DB : Type}.
Context (nodeDB_Get : string → string → DB → (Node IP + error) * DB).
Context (nodeDB_AddAddresses :
  string → string → list (option (Address IP)) → DB → option error * DB).
Context (nodeDB_Add : string → Node IP → DB → option error * DB).

Abbreviation to_strings := (addressToString IsZero IP_String).
Abbreviation GET := (get_node IsZero IP_String uuid_Parse wg_ParseKey nodeDB_Get).
Abbreviation PUT :=
  (put_node IsZero IP_String uuid_Parse wg_ParseKey BodyParser_addresses
            nodeDB_AddAddresses).
Abbreviation POST :=
  (post_node IsZero IP_String uuid_Parse wg_ParseKey BodyParser_node nodeDB_Add).

(** The calls of the store among the events. *)
Definition is_store_call (e : event IP) : bool :=
  match e with
  | StoreGet _ _ | StoreAddAddresses _ _ _ | StoreAdd _ _ => true
  | _ => false
  end.

Definition store_calls (events : list (event IP)) : list (event IP) :=
  filter (λ e, is_store_call e = true) events.

(** Whether a slice of addresses has a nil element. *)
Definition has_nil (l : list (option (Address IP))) : bool :=
  existsb (λ a, match a with None => true | Some _ => false end) l.

Lemma has_nil_true l : has_nil l = true ↔ None ∈ l.
Proof.
  unfold has_nil. rewrite existsb_exists. split.
  - intros ([a|] & Hin%list_elem_of_In & Ha); [done|done].
  - intros Hin. exists None. split; [by apply list_elem_of_In|done].
Qed.

(** The string of one address. *)
Definition address_string (a : Address IP) : string :=
  if IsZero (addr_IP a) then Name a else IP_String (addr_IP a).

Definition parses_uuid (cluster : string) : Prop :=
  ∃ u, uuid_Parse cluster = inl u.
Definition parses_key (key : string) : Prop :=
  ∃ k, wg_ParseKey key = inl k.

Lemma validateClusterID_None cluster :
  validateClusterID uuid_Parse cluster = None ↔ parses_uuid cluster.
Proof.
  unfold validateClusterID, parses_uuid.
  destruct (uuid_Parse cluster); split; (eauto || done || by intros [? ?]).
Qed.

Lemma validatePublicKey_None key :
  validatePublicKey wg_ParseKey key = None ↔ parses_key key.
Proof.
  unfold validatePublicKey, parses_key.
  destruct (wg_ParseKey key); split; (eauto || done || by intros [? ?]).
Qed.

(** *** addressToString *)

Lemma addressToString_loop_None (l : list (option (Address IP))) :
  foldl (λ out a,
           match out, a with
           | Some out, Some a =>
               if negb (IsZero (addr_IP a))
               then Some (out ++ [IP_String (addr_IP a)])
               else Some (out ++ [Name a])
           | _, _ => None
           end) None l = None.
Proof. by induction l. Qed.

Lemma addressToString_loop (acc : list string) (l : list (option (Address IP))) :
  foldl (λ out a,
           match out, a with
           | Some out, Some a =>
               if negb (IsZero (addr_IP a))
               then Some (out ++ [IP_String (addr_IP a)])
               else Some (out ++ [Name a])
           | _, _ => None
           end) (Some acc) l =
  (λ out, acc ++ out) <$> to_strings l.
Proof.
  revert acc. induction l as [|a l IH]; intros acc.
  - simpl. by rewrite app_nil_r.
  - unfold addressToString. cbn [foldl]. destruct a as [a|].
    + assert (∀ out : list string,
                (if negb (IsZero (addr_IP a))
                 then Some (out ++ [IP_String (addr_IP a)])
                 else Some (out ++ [Name a])) = Some (out ++ [address_string a]))
        as Hstep.
      { intros out. unfold address_string. by destruct (IsZero (addr_IP a)). }
      rewrite !Hstep, !IH. fold (to_strings l).
      destruct (to_strings l) as [out|]; [|done]. simpl. by rewrite <- app_assoc.
    + by rewrite !addressToString_loop_None.
Qed.

Lemma addressToString_cons (a : option (Address IP)) l :
  to_strings (a :: l) =
  match a with
  | Some a => (λ out, address_string a :: out) <$> to_strings l
  | None => None
  end.
Proof.
  unfold addressToString at 1. cbn [foldl]. destruct a as [a|].
  - assert ((if negb (IsZero (addr_IP a))
             then Some ([] ++ [IP_String (addr_IP a)])
             else Some ([] ++ [Name a])) = Some [address_string a]) as ->.
    { unfold address_string. by destruct (IsZero (addr_IP a)). }
    by rewrite addressToString_loop.
  - apply addressToString_loop_None.
Qed.

Lemma addressToString_None l : to_strings l = None ↔ None ∈ l.
Proof.
  induction l as [|a l IH].
  - split; [done|by intros ?%elem_of_nil].
  - rewrite addressToString_cons, elem_of_cons. destruct a as [a|].
    + rewrite fmap_None, IH. split; [by right|by intros [?|?]].
    + split; [by left|done].
Qed.

Lemma addressToString_Some l out :
  to_strings l = Some out ↔ Forall2 (λ a s, ∃ x, a = Some x ∧ s = address_string x) l out.
Proof.
  revert out. induction l as [|a l IH]; intros out.
  - split; [intros [= <-]; constructor|by intros ->%Forall2_nil_inv_l].
  - rewrite addressToString_cons. destruct a as [a|].
    + rewrite fmap_Some. split.
      * intros (out' & Hl & ->). constructor; [eauto|by apply IH].
      * intros (s & out' & (x & [= <-] & ->) & Hl & ->)%Forall2_cons_inv_l.
        exists out'. split; [by apply IH|done].
    + split; [done|].
      by intros (s & out' & (x & [= ] & _) & _)%Forall2_cons_inv_l.
Qed.

Lemma has_nil_addressToString l :
  has_nil l = match to_strings l with None => true | Some _ => false end.
Proof.
  destruct (to_strings l) as [out|] eqn:Hs.
  - apply not_true_is_false. intros Hin%has_nil_true%addressToString_None.
    congruence.
  - by apply has_nil_true, addressToString_None.
Qed.

(** X9. [addressToString] panics exactly on a slice with a nil address.
    On any other slice it returns one string per address, in order: the
    name of an address whose IP is zero, the text of the IP otherwise; so
    the result is as long as the slice, and that of two slices one after
    the other is the two results one after the other. *)
Theorem addressToString_spec (l : list (option (Address IP))) :
  (to_strings l = None ↔ None ∈ l) ∧
  (∀ out, to_strings l = Some out →
     length out = length l ∧
     ∀ i a, l !! i = Some (Some a) →
       out !! i = Some (if IsZero (addr_IP a) then Name a
                        else IP_String (addr_IP a))) ∧
  (∀ l2 out out2, to_strings l = Some out → to_strings l2 = Some out2 →
     to_strings (l ++ l2) = Some (out ++ out2)).
Proof.
  split_and!.
  - apply addressToString_None.
  - intros out Hout%addressToString_Some. split.
    + symmetry. by eapply Forall2_length.
    + intros i a Hi.
      destruct (Forall2_lookup_l _ _ _ _ _ Hout Hi) as (s & Hs & x & [= <-] & ->).
      done.
  - intros l2 out out2 H1%addressToString_Some H2%addressToString_Some.
    apply addressToString_Some. by apply Forall2_app.
Qed.

(** *** GET /:cluster/:node *)

Definition valid_get (req : Request Body) : Prop :=
  param_cluster req ≠ "" ∧ parses_uuid (param_cluster req) ∧
  parses_key (param_node req) ∧ param_node req ≠ "".

(** X10. [GET /:cluster/:node].  A request with an empty cluster, a cluster
    that is no UUID, a node that is no key or an empty node is answered
    with status 400, the store neither called nor changed; and status 400
    is the answer to such requests only.  Any other request calls the
    store's [Get] once, with the cluster and the node of the path: an error
    of the store that is [ErrNotFound] gives 404, any other error 500; a
    node the store returns is the JSON answer, unless one of its addresses
    is nil, in which case the handler panics while it builds the log
    line. *)
Theorem get_node_spec (req : Request Body) (db : DB) :
  let events := (GET req db).1.1 in
  let out := (GET req db).1.2 in
  let db' := (GET req db).2 in
  let stored := nodeDB_Get (param_cluster req) (param_node req) db in
  (¬ valid_get req →
     out = Sent StatusBadRequest ∧ store_calls events = [] ∧ db' = db) ∧
  (valid_get req →
     store_calls events = [StoreGet (param_cluster req) (param_node req)] ∧
     db' = stored.2 ∧
     out = match stored.1 with
           | inr e => if errors_Is_ErrNotFound e then Sent StatusNotFound
                      else Sent StatusInternalServerError
           | inl n => if has_nil (Addresses n) then Panic else SentJSON n
           end) ∧
  (out = Sent StatusBadRequest → ¬ valid_get req).
Proof.
  intros events out db' stored. subst events out db' stored.
  unfold get_node, valid_get.
  destruct (decide (param_cluster req = "")) as [Hc|Hc].
  { split_and!; [done|by intros [? _]|by intros _ [? _]]. }
  destruct (validateClusterID uuid_Parse (param_cluster req)) as [e|] eqn:Hu.
  { assert (¬ parses_uuid (param_cluster req)) as Hnu.
    { intros Hp%validateClusterID_None. congruence. }
    split_and!; [done|by intros (_ & ? & _)|by intros _ (_ & ? & _)]. }
  apply validateClusterID_None in Hu.
  destruct (validatePublicKey wg_ParseKey (param_node req)) as [e|] eqn:Hk.
  { assert (¬ parses_key (param_node req)) as Hnk.
    { intros Hp%validatePublicKey_None. congruence. }
    split_and!; [done|by intros (_ & _ & ? & _)|by intros _ (_ & _ & ? & _)]. }
  apply validatePublicKey_None in Hk.
  destruct (decide (param_node req = "")) as [Hn|Hn].
  { split_and!; [done|by intros (_ & _ & _ & ?)|by intros _ (_ & _ & _ & ?)]. }
  assert (Hvalid : param_cluster req ≠ "" ∧ parses_uuid (param_cluster req) ∧
            parses_key (param_node req) ∧ param_node req ≠ "") by done.
  destruct (nodeDB_Get (param_cluster req) (param_node req) db)
    as [[n|e] db1] eqn:Hget; cbn [fst snd].
  - rewrite has_nil_addressToString.
    destruct (to_strings (Addresses n)) as [out|] eqn:Hs;
      (split_and!; [by intros ?|done|done]).
  - destruct (errors_Is_ErrNotFound e);
      (split_and!; [by intros ?|done|done]).
Qed.

(** *** PUT /:cluster/:node *)

Definition valid_put (req : Request Body) : Prop :=
  parses_uuid (param_cluster req) ∧ parses_key (param_node req) ∧
  ∃ addresses, BodyParser_addresses (body req) = inl addresses.

(** X11. [PUT /:cluster/:node].  A cluster that is no UUID, a node that is
    no key or a body that does not parse is answered with status 400, the
    store neither called nor changed, and 400 is the answer to such
    requests only.  Any other request calls the store's [AddAddresses]
    once with the cluster, the node and the addresses of the body, also
    when the node is the empty string, which is logged and no more.  The
    answer is 204 when the store accepts; when it fails, whatever the
    error, it is 500, or a panic when an address of the body is nil.  The
    handler never answers 404. *)
Theorem put_node_spec (req : Request Body) (db : DB) :
  let events := (PUT req db).1.1 in
  let out := (PUT req db).1.2 in
  let db' := (PUT req db).2 in
  (¬ valid_put req →
     out = Sent StatusBadRequest ∧ store_calls events = [] ∧ db' = db) ∧
  (∀ addresses, valid_put req →
     BodyParser_addresses (body req) = inl addresses →
     let stored :=
       nodeDB_AddAddresses (param_cluster req) (param_node req) addresses db in
     store_calls events =
       [StoreAddAddresses (param_cluster req) (param_node req) addresses] ∧
     db' = stored.2 ∧
     out = match stored.1 with
           | None => Sent StatusNoContent
           | Some _ => if has_nil addresses then Panic
                       else Sent StatusInternalServerError
           end) ∧
  (out = Sent StatusBadRequest → ¬ valid_put req) ∧
  out ≠ Sent StatusNotFound.
Proof.
  intros events out db'. subst events out db'.
  unfold put_node, valid_put.
  destruct (validateClusterID uuid_Parse (param_cluster req)) as [e|] eqn:Hu.
  { assert (¬ parses_uuid (param_cluster req)) as Hnu.
    { intros Hp%validateClusterID_None. congruence. }
    split_and!; [done|by intros ? (? & _)|by intros _ (? & _)|done]. }
  apply validateClusterID_None in Hu.
  destruct (validatePublicKey wg_ParseKey (param_node req)) as [e|] eqn:Hk.
  { assert (¬ parses_key (param_node req)) as Hnk.
    { intros Hp%validatePublicKey_None. congruence. }
    split_and!; [done|by intros ? (_ & ? & _)|by intros _ (_ & ? & _)|done]. }
  apply validatePublicKey_None in Hk.
  destruct (BodyParser_addresses (body req)) as [addresses|e] eqn:Hb.
  2:{ split_and!; [done|by intros ? (_ & _ & ? & ?)|by intros _ (_ & _ & ? & ?)|done]. }
  assert (parses_uuid (param_cluster req) ∧ parses_key (param_node req) ∧
          ∃ addresses0 : list (option (Address IP)),
            @inl _ error addresses = inl addresses0) as Hvalid by eauto.
  destruct (nodeDB_AddAddresses (param_cluster req) (param_node req) addresses db)
    as [[err|] db1] eqn:Hadd; cbn [fst snd].
  - destruct (to_strings addresses) as [strs|] eqn:Hs.
    + split_and!; [by intros ?| |done|done].
      intros ? _ [= <-]. rewrite Hadd. cbn [fst snd].
      rewrite has_nil_addressToString, Hs.
      split; [|done]. unfold store_calls. by case_decide.
    + split_and!; [by intros ?| |done|done].
      intros ? _ [= <-]. rewrite Hadd. cbn [fst snd].
      rewrite has_nil_addressToString, Hs.
      split; [|done]. unfold store_calls. by case_decide.
  - split_and!; [by intros ?| |done|done].
    intros ? _ [= <-]. rewrite Hadd. cbn [fst snd].
    split; [|done]. unfold store_calls. by case_decide.
Qed.

(** *** POST /:cluster *)

Definition valid_post (req : Request Body) : Prop :=
  parses_uuid (param_cluster req) ∧
  ∃ n, BodyParser_node (body req) = inl n ∧ parses_key (ID n).

(** X12. [POST /:cluster].  A cluster that is no UUID, a body that does not
    parse or a node whose ID is no key is answered with status 400, the
    store neither called nor changed, and 400 is the answer to such
    requests only.  Any other request calls the store's [Add] once with
    the node of the body.  When an address of the node is nil the handler
    then panics, whether the store accepted the node or not; otherwise the
    answer is 204 when the store accepts and 500 when it fails, whatever
    the error. *)
Theorem post_node_spec (req : Request Body) (db : DB) :
  let events := (POST req db).1.1 in
  let out := (POST req db).1.2 in
  let db' := (POST req db).2 in
  (¬ valid_post req →
     out = Sent StatusBadRequest ∧ store_calls events = [] ∧ db' = db) ∧
  (∀ n, BodyParser_node (body req) = inl n → valid_post req →
     let stored := nodeDB_Add (param_cluster req) n db in
     store_calls events = [StoreAdd (param_cluster req) n] ∧
     db' = stored.2 ∧
     out = if has_nil (Addresses n) then Panic
           else match stored.1 with
                | None => Sent StatusNoContent
                | Some _ => Sent StatusInternalServerError
                end) ∧
  (out = Sent StatusBadRequest → ¬ valid_post req) ∧
  out ≠ Sent StatusNotFound.
Proof.
  intros events out db'. subst events out db'.
  unfold post_node, valid_post.
  destruct (validateClusterID uuid_Parse (param_cluster req)) as [e|] eqn:Hu.
  { assert (¬ parses_uuid (param_cluster req)) as Hnu.
    { intros Hp%validateClusterID_None. congruence. }
    split_and!; [done|by intros ? _ (? & _)|by intros _ (? & _)|done]. }
  apply validateClusterID_None in Hu.
  destruct (BodyParser_node (body req)) as [n|e] eqn:Hb.
  2:{ split_and!; [done|by intros ? [= ]|by intros _ (_ & ? & [= ] & _)|done]. }
  destruct (validatePublicKey wg_ParseKey (ID n)) as [e|] eqn:Hk.
  { assert (¬ parses_key (ID n)) as Hnk.
    { intros Hp%validatePublicKey_None. congruence. }
    split_and!; [done| | |done].
    - by intros ? [= <-] (_ & ? & [= <-] & ?).
    - by intros _ (_ & ? & [= <-] & ?). }
  apply validatePublicKey_None in Hk.
  assert (parses_uuid (param_cluster req) ∧
          ∃ n0, @inl _ error n = inl n0 ∧ parses_key (ID n0)) as Hvalid by eauto.
  destruct (nodeDB_Add (param_cluster req) n db) as [[err|] db1] eqn:Hadd;
    cbn [fst snd];
    destruct (to_strings (Addresses n)) as [strs|] eqn:Hs.
  all: split_and!; [by intros ?| |done|done].
  all: intros ? [= <-] _; rewrite Hadd; cbn [fst snd].
  all: by rewrite has_nil_addressToString, Hs.
Qed.

End node_handler_facts.

(** * Examples

    The scenario of the specification, on the affiliate implementation of
    [Reference]: a cluster [C], an affiliate [A] with one endpoint, a
    subscription, the same endpoint again, the deletion, the sweep. *)

Section examples.
Abbreviation RState := (State Reference.Affiliate Reference.AffiliateExport).
Abbreviation any_order := (canonical_order Reference.Affiliate).

Definition demo0 : RState := initial "C".
Definition demo1 : RState := WithAffiliate "A" (Reference.addEndpoint 10 "10.0.0.1") demo0.
Definition demo2 : RState := (Subscribe 7 9 any_order demo1).2.
Definition demo3 : RState := WithAffiliate "A" (Reference.addEndpoint 20 "10.0.0.1") demo2.
Definition demo4 : RState := DeleteAffiliate "A" demo3.

(** Three subscriptions, at the addresses 1, 2 and 3. *)
Definition demo_subs : RState :=
  (Subscribe 7 13 any_order (Subscribe 7 11 any_order demo2).2).2.

(** An affiliate that is stale at time 6000, and a fresh one with a stale
    endpoint. *)
Definition sweep0 : RState :=
  WithAffiliate "new" (Reference.addEndpoint 5000 "2.2.2.2")
    (WithAffiliate "new" (Reference.addEndpoint 0 "1.1.1.1")
       (WithAffiliate "old" (Reference.addEndpoint 0 "10.0.0.1") demo0)).
Definition sweep1 : RState := (Subscribe 7 9 any_order sweep0).2.

Definition exportA : Reference.AffiliateExport :=
  {| Reference.ID := "A"; Reference.Endpoints := ["10.0.0.1"] |}.

Example scenario_first_write :
  notified demo1 = [Notification.Build "A" (Some exportA)].
Proof. vm_compute. reflexivity. Qed.

Example scenario_snapshot :
  (Subscribe 7 9 any_order demo1).1 = ([exportA], 1).
Proof. vm_compute. reflexivity. Qed.

Example scenario_duplicate_write : delivered demo3 = [].
Proof. vm_compute. reflexivity. Qed.

Example scenario_delete :
  delivered demo4 = [(1, Notification.Build "A" None)] ∧
  (List any_order demo4).1 = [].
Proof. split; vm_compute; reflexivity. Qed.

Example scenario_sweep :
  (GarbageCollect 100000 any_order demo4).1 = true.
Proof. vm_compute. reflexivity. Qed.

Example unsubscribe_first_of_three :
  subscriptions (cl demo_subs) = [1; 2; 3] ∧
  subscriptions (cl (unsubscribe 1 demo_subs)) = [3; 2] ∧
  subscriptions (cl (unsubscribe 3 demo_subs)) = [1; 2] ∧
  subscriptions (cl (unsubscribe 4 demo_subs)) = [1; 2; 3].
Proof. split_and!; vm_compute; reflexivity. Qed.

(** The affiliates of [Reference] report a removal as a change. *)
Lemma Reference_removal_is_change (now : Time) (a : Reference.Affiliate) :
  removes now a = true → reports_change now a = true.
Proof.
  unfold removes, reports_change. simpl. unfold Reference.GarbageCollect.
  by destruct (Reference.stale now (Reference.lastUpdated a)).
Qed.

Lemma WithAffiliate_spec_witness :
  affiliates (cl demo0) !! "A" = None ∧
  notified demo1 = notified demo0 ++ [Notification.Build "A" (Some exportA)] ∧
  is_Some (affiliates (cl demo2) !! "A") ∧
  notified demo3 = notified demo2 ++ [].
Proof.
  destruct (WithAffiliate_spec "A" (Reference.addEndpoint 10 "10.0.0.1") demo0)
    as (_ & Hnew & _).
  destruct (Hnew eq_refl) as (_ & Hn & _).
  destruct (WithAffiliate_spec "A" (Reference.addEndpoint 20 "10.0.0.1") demo2)
    as (Hold & _ & _).
  destruct (Hold _ eq_refl) as (_ & Hn' & _).
  split_and!; [reflexivity|exact Hn|eexists; reflexivity|exact Hn'].
Defined.




Lemma GarbageCollect_notifies_every_change_witness :
  ∃ a,
    affiliates (cl sweep1) !! "new" = Some a ∧
    removes 6000 a = false ∧ reports_change 6000 a = true ∧
    affiliates (cl (GarbageCollect 6000 any_order sweep1).2) !! "new" =
      Some (after_sweep 6000 a) ∧
    Export (after_sweep 6000 a) ∈
      (List any_order (GarbageCollect 6000 any_order sweep1).2).1.
Proof.
  destruct (GarbageCollect_notifies_every_change 6000 any_order sweep1)
    as (emitted & _ & _ & _ & Hkept).
  eexists. split; [reflexivity|]. split; [reflexivity|]. split; [reflexivity|].
  destruct (Hkept "new" _ eq_refl eq_refl eq_refl) as (_ & Hin & Hlist).
  split; [exact Hin|apply Hlist].
Defined.

Lemma DeleteAffiliate_spec_witness :
  is_Some (affiliates (cl demo3) !! "A") ∧
  affiliates (cl demo4) !! "A" = None ∧
  notified demo4 = notified demo3 ++ [Notification.Build "A" None] ∧
  cl (DeleteAffiliate "A" demo4) = cl demo4 ∧
  notified (DeleteAffiliate "A" demo4) = notified demo4.
Proof.
  destruct (DeleteAffiliate_spec "A" demo3) as (Hpresent & _).
  destruct (Hpresent _ eq_refl) as (_ & Hgone & Hn & _).
  destruct (DeleteAffiliate_spec "A" demo4) as (_ & Habsent & _).
  destruct (Habsent Hgone) as (Hcl & Hn' & _).
  split_and!; [eexists; reflexivity|exact Hgone|exact Hn|exact Hcl|exact Hn'].
Defined.

Lemma Subscribe_spec_witness :
  (Subscribe 7 9 any_order demo1).1.1 = (List any_order demo1).1 ∧
  subscriptions (cl demo2) =
    subscriptions (cl demo1) ++ [(Subscribe 7 9 any_order demo1).1.2].
Proof.
  destruct (Subscribe_spec 7 9 any_order demo1) as (Hsnap & _ & _ & Hsubs & _).
  split; [exact Hsnap|exact Hsubs].
Defined.

Lemma List_one_export_per_affiliate_witness :
  length (List any_order sweep1).1 = size (affiliates (cl sweep1)) ∧
  length (List any_order sweep1).1 = 2.
Proof.
  destruct (List_one_export_per_affiliate any_order sweep1) as (Hlen & _).
  split; [exact Hlen|vm_compute; reflexivity].
Defined.

Lemma demo_subs_reachable : reachable demo_subs.
Proof.
  exists "C". unfold demo_subs, demo2, demo1.
  eapply rtc_r; [|apply step_Subscribe].
  eapply rtc_r; [|apply step_Subscribe].
  eapply rtc_r; [|apply step_Subscribe].
  eapply rtc_r; [|apply step_WithAffiliate].
  apply rtc_refl.
Qed.

Lemma unsubscribe_spec_witness :
  reachable demo_subs ∧
  (1 ∉ subscriptions (cl (unsubscribe 1 demo_subs))) ∧
  cl (unsubscribe 1 (unsubscribe 1 demo_subs)) = cl (unsubscribe 1 demo_subs).
Proof.
  destruct (unsubscribe_spec 1 demo_subs demo_subs_reachable)
    as (Hoff & _ & _ & _ & _ & Hidem & _).
  split_and!; [exact demo_subs_reachable|exact Hoff|exact Hidem].
Defined.

Definition two_deletions : list (Notification Reference.AffiliateExport) :=
  [Notification.Build "A" None; Notification.Build "B" None].

Lemma notify_frame_and_delivery_witness :
  NoDup (subscriptions (cl demo_subs)) ∧ 2 ∈ subscriptions (cl demo_subs) ∧
  (filter (λ d, d.1 = 2)
     (deliveries two_deletions (subscriptions (cl demo_subs)))).*2 =
  two_deletions.
Proof.
  destruct (notify_frame_and_delivery two_deletions demo_subs)
    as (_ & _ & _ & _ & _ & _ & _ & _ & _ & Horder).
  assert (Hsubs : subscriptions (cl demo_subs) = [1; 2; 3])
    by (vm_compute; reflexivity).
  assert (Hnd : NoDup (subscriptions (cl demo_subs)))
    by (rewrite Hsubs; compute_done).
  assert (Hin : 2 ∈ subscriptions (cl demo_subs))
    by (rewrite Hsubs; compute_done).
  split_and!; [exact Hnd|exact Hin|exact (Horder 2 Hnd Hin)].
Defined.

End examples.

Section handler_examples.
Import ListEndpoint.

Definition example_db : gmap string (list string) :=
  {[ "123e4567-e89b-12d3-a456-426614174000" := ["node1"; "node2"] ]}.

Abbreviation example_handler := (list_handler example_Parse example_List).

Example handler_empty :
  (example_handler "" example_db).1 =
  ([LogError "empty cluster for node list"], SendStatus 400).
Proof. reflexivity. Qed.

Example handler_malformed :
  (example_handler "not-a-uuid" example_db).1 =
  ([LogError "bad cluster ID"], SendStatus 400).
Proof. vm_compute. reflexivity. Qed.

Example handler_unknown :
  (example_handler "00000000-0000-0000-0000-000000000000" example_db).1.2 =
  SendStatus 404.
Proof. vm_compute. reflexivity. Qed.

Example handler_known :
  (example_handler "123e4567-e89b-12d3-a456-426614174000" example_db).1.2 =
  JSON ["node1"; "node2"].
Proof. vm_compute. reflexivity. Qed.

Lemma list_handler_spec_witness :
  (∃ err, example_Parse "not-a-uuid" = inr err) ∧
  (example_handler "not-a-uuid" example_db).1.2 = SendStatus StatusBadRequest ∧
  ¬ calls_store (example_handler "not-a-uuid" example_db).1.1 ∧
  (example_handler "00000000-0000-0000-0000-000000000000" example_db).1.2 =
    SendStatus StatusNotFound.
Proof.
  assert (Hbad : ∃ err, example_Parse "not-a-uuid" = inr err).
  { eexists. vm_compute. reflexivity. }
  destruct (list_handler_spec example_Parse example_List "not-a-uuid" example_db)
    as (H400 & _).
  destruct (H400 (or_intror Hbad)) as (Hresp & Hnocall & _).
  destruct (list_handler_spec example_Parse example_List
              "00000000-0000-0000-0000-000000000000" example_db)
    as (_ & H404 & _).
  assert (Hne : "00000000-0000-0000-0000-000000000000" ≠ "") by discriminate.
  assert (Hok : ∃ u, example_Parse "00000000-0000-0000-0000-000000000000" = inl u).
  { eexists. vm_compute. reflexivity. }
  destruct (H404 Hne Hok (Wrap "list failed" ErrNotFound) eq_refl) as (Hnf & _).
  split_and!; [exact Hbad|exact Hresp|exact Hnocall|exact (Hnf eq_refl)].
Defined.

End handler_examples.

(** * More examples *)

Section more_examples.
Abbreviation any_order := (canonical_order Reference.Affiliate).

(** A second order of the range: that of [map_to_list], backwards. *)
Definition reversed_order (V : Type) : RangeOrder V :=
  {| range_of := λ m, reverse (map_to_list m);
     range_of_perm := λ m, reverse_Permutation (map_to_list m) |}.

Lemma demo_subs_run : rtc step (initial "C") demo_subs.
Proof.
  unfold demo_subs, demo2, demo1.
  eapply rtc_r; [|apply step_Subscribe].
  eapply rtc_r; [|apply step_Subscribe].
  eapply rtc_r; [|apply step_Subscribe].
  eapply rtc_r; [|apply step_WithAffiliate].
  apply rtc_refl.
Qed.

Lemma demo1_reachable : reachable demo1.
Proof.
  exists "C". unfold demo1. eapply rtc_r; [apply rtc_refl|apply step_WithAffiliate].
Qed.

Lemma demo2_to_demo4 : rtc step demo2 demo4.
Proof.
  unfold demo4, demo3.
  eapply rtc_r; [|apply step_DeleteAffiliate].
  eapply rtc_r; [|apply step_WithAffiliate].
  apply rtc_refl.
Qed.

Lemma demo4_reachable : reachable demo4.
Proof.
  exists "C". etrans; [|apply demo2_to_demo4]. unfold demo2, demo1.
  eapply rtc_r; [|apply step_Subscribe].
  eapply rtc_r; [|apply step_WithAffiliate].
  apply rtc_refl.
Qed.

Lemma cluster_invariants_witness :
  rtc step (initial "C") demo_subs ∧
  id (cl demo_subs) = "C" ∧ NoDup (subscriptions (cl demo_subs)).
Proof.
  destruct (cluster_invariants "C" demo_subs demo_subs_run) as (Hid & Hnd & _).
  split_and!; [exact demo_subs_run|exact Hid|exact Hnd].
Defined.

Lemma subscription_objects_are_stable_witness :
  rtc step demo2 demo4 ∧
  subscriptionHeap demo2 !! 1 = Some {| cluster := 7; errCh := 1; ch := 9 |} ∧
  subscriptionHeap demo4 !! 1 = Some {| cluster := 7; errCh := 1; ch := 9 |}.
Proof.
  assert (H2 : subscriptionHeap demo2 !! 1 =
               Some {| cluster := 7; errCh := 1; ch := 9 |})
    by (vm_compute; reflexivity).
  split_and!; [exact demo2_to_demo4|exact H2|].
  exact (subscription_objects_are_stable 1 _ demo2 demo4 demo2_to_demo4 H2).
Defined.

Lemma GarbageCollect_order_independent_witness :
  cl (GarbageCollect 6000 any_order sweep1).2 =
  cl (GarbageCollect 6000 (reversed_order Reference.Affiliate) sweep1).2 ∧
  notified (GarbageCollect 6000 any_order sweep1).2 ≠
  notified (GarbageCollect 6000 (reversed_order Reference.Affiliate) sweep1).2.
Proof.
  destruct (GarbageCollect_order_independent 6000 any_order
              (reversed_order Reference.Affiliate) sweep1) as (Hcl & _).
  split; [exact Hcl|]. vm_compute. discriminate.
Defined.

Lemma Subscribe_unsubscribe_witness :
  reachable demo1 ∧
  cl (unsubscribe (Subscribe 7 9 any_order demo1).1.2 demo2) = cl demo1.
Proof.
  split; [exact demo1_reachable|].
  exact (Subscribe_unsubscribe 7 9 any_order demo1 demo1_reachable).
Defined.

Lemma unsubscribe_removes_first_witness :
  1 ∈ subscriptions (cl demo_subs) ∧
  ∃ i, subscriptions (cl demo_subs) !! i = Some 1 ∧
       S (length (subscriptions (cl (unsubscribe 1 demo_subs)))) =
       length (subscriptions (cl demo_subs)).
Proof.
  assert (Hin : 1 ∈ subscriptions (cl demo_subs)).
  { assert (subscriptions (cl demo_subs) = [1; 2; 3]) as ->
      by (vm_compute; reflexivity).
    compute_done. }
  destruct (unsubscribe_removes_first 1 demo_subs) as (Hon & _).
  destruct (Hon Hin) as (i & Hi & _ & _ & Hlen & _).
  split; [exact Hin|]. exists i. split; [exact Hi|exact Hlen].
Defined.

Lemma WithAffiliate_then_List_witness :
  length (List any_order demo1).1 = 1 ∧
  length (List any_order demo3).1 = 1.
Proof.
  destruct (WithAffiliate_then_List "A" (Reference.addEndpoint 10 "10.0.0.1")
              any_order demo0) as (_ & Hnew).
  destruct (WithAffiliate_then_List "A" (Reference.addEndpoint 20 "10.0.0.1")
              any_order demo2) as (_ & Hold).
  split; [exact Hnew|exact Hold].
Defined.

Lemma WithAffiliate_then_DeleteAffiliate_witness :
  affiliates (cl demo0) !! "A" = None ∧
  cl (DeleteAffiliate "A" demo1) = cl demo0.
Proof.
  split; [reflexivity|].
  destruct (WithAffiliate_then_DeleteAffiliate "A"
              (Reference.addEndpoint 10 "10.0.0.1") demo0 eq_refl) as (Hcl & _).
  exact Hcl.
Defined.

Lemma DeleteAffiliate_then_WithAffiliate_witness :
  affiliates (cl (WithAffiliate "A" (Reference.addEndpoint 30 "10.0.0.2")
                    (DeleteAffiliate "A" demo3))) !! "A" =
  Some (Reference.addEndpoint 30 "10.0.0.2" (Reference.NewAffiliate "A")).
Proof.
  destruct (DeleteAffiliate_then_WithAffiliate "A"
              (Reference.addEndpoint 30 "10.0.0.2") demo3) as (Hm & _).
  rewrite Hm. apply lookup_insert_eq.
Defined.

Lemma snapshot_then_stream_witness :
  reachable demo1 ∧ rtc step demo2 demo4 ∧
  (Subscribe 7 9 any_order demo1).1.2 ∈ subscriptions (cl demo4) ∧
  ∃ emitted later,
    notified demo4 = notified demo2 ++ emitted ∧
    delivered demo4 = delivered demo2 ++ later ∧
    (filter (λ d, d.1 = (Subscribe 7 9 any_order demo1).1.2) later).*2 = emitted.
Proof.
  assert (Hin : (Subscribe 7 9 any_order demo1).1.2 ∈ subscriptions (cl demo4)).
  { assert (subscriptions (cl demo4) = [1]) as -> by (vm_compute; reflexivity).
    assert ((Subscribe 7 9 any_order demo1).1.2 = 1) as ->
      by (vm_compute; reflexivity).
    compute_done. }
  destruct (snapshot_then_stream 7 9 any_order demo1 demo4 demo1_reachable
              demo2_to_demo4 Hin) as (_ & _ & Hstream).
  split_and!; [exact demo1_reachable|exact demo2_to_demo4|exact Hin|exact Hstream].
Defined.

Lemma reachable_lock_discipline_witness :
  reachable demo4 ∧
  run_locks (false, false) (trace demo4) = Some (false, false).
Proof.
  split; [exact demo4_reachable|].
  exact (reachable_lock_discipline demo4 demo4_reachable).
Defined.

Lemma demo2_quiet_at_100 k a :
  affiliates (cl demo2) !! k = Some a →
  removes 100 a = false ∧ reports_change 100 a = false ∧ after_sweep 100 a = a.
Proof.
  assert (affiliates (cl demo2) =
          {[ "A" := Reference.addEndpoint 10 "10.0.0.1" (Reference.NewAffiliate "A") ]})
    as -> by (vm_compute; reflexivity).
  intros [<- <-]%lookup_singleton_Some. by vm_compute.
Qed.

Lemma GarbageCollect_quiet_witness :
  (∀ k a, affiliates (cl demo2) !! k = Some a →
     removes 100 a = false ∧ reports_change 100 a = false ∧
     after_sweep 100 a = a) ∧
  cl (GarbageCollect 100 any_order demo2).2 = cl demo2 ∧
  notified (GarbageCollect 100 any_order demo2).2 = notified demo2.
Proof.
  destruct (GarbageCollect_quiet 100 any_order demo2 demo2_quiet_at_100)
    as (Hcl & Hn & _).
  split_and!; [exact demo2_quiet_at_100|exact Hcl|exact Hn].
Defined.

End more_examples.

Section node_handler_examples.
Import ListEndpoint NodeEndpoints.

(** An address library, a key parser, a body and a store for the examples:
    an IP is its text, the zero IP the empty text; a key is any text of 44
    characters; a body is what the parsers make of it; the store is a map
    from cluster and node to the node's record. *)
Definition ex_IsZero (ip : string) : bool := bool_decide (ip = "").
Definition ex_IP_String (ip : string) : string := ip.

Definition ex_ParseKey (key : string) : string + error :=
  if String.length key =? 44 then inl key else inr (ErrOther "incorrect key size").

Record ExBody := {
  as_addresses : option (list (option (Address string)));
  as_node : option (Node string)
}.

Definition ex_BodyParser_addresses (b : ExBody)
    : list (option (Address string)) + error :=
  match as_addresses b with
  | Some l => inl l
  | None => inr (ErrOther "unexpected end of JSON input")
  end.

Definition ex_BodyParser_node (b : ExBody) : Node string + error :=
  match as_node b with
  | Some n => inl n
  | None => inr (ErrOther "unexpected end of JSON input")
  end.

Definition ExDB := gmap (string * string) (Node string).

Definition ex_Get (cluster node : string) (db : ExDB)
    : (Node string + error) * ExDB :=
  match db !! (cluster, node) with
  | Some n => (inl n, db)
  | None => (inr (Wrap "get failed" ErrNotFound), db)
  end.

Definition ex_AddAddresses (cluster node : string)
    (addresses : list (option (Address string))) (db : ExDB)
    : option error * ExDB :=
  match db !! (cluster, node) with
  | Some n =>
      (None,
       <[(cluster, node) :=
           {| ID := ID n; node_IP := node_IP n;
              Addresses := Addresses n ++ addresses |}]> db)
  | None => (Some ErrNotFound, db)
  end.

Definition ex_Add (cluster : string) (n : Node string) (db : ExDB)
    : option error * ExDB :=
  (None, <[(cluster, ID n) := n]> db).

Definition ex_cluster : string := "123e4567-e89b-12d3-a456-426614174000".
Definition ex_key : string := "xTIBA5rboUvnH4htodjb6e697QjLERt1NAB4mZqp8Dg=".

Definition ex_addresses : list (option (Address string)) :=
  [Some {| addr_IP := "10.0.0.1"; Name := "" |};
   Some {| addr_IP := ""; Name := "node.example.org" |}].

Definition ex_node : Node string :=
  {| ID := ex_key; node_IP := "fd00::1"; Addresses := ex_addresses |}.

Definition ex_node_nil : Node string :=
  {| ID := ex_key; node_IP := "fd00::1"; Addresses := ex_addresses ++ [None] |}.

Definition ex_store : ExDB := {[ (ex_cluster, ex_key) := ex_node ]}.

Definition ex_request (cluster node : string) (b : ExBody) : Request ExBody :=
  {| param_cluster := cluster; param_node := node; body := b |}.

Definition no_body : ExBody := {| as_addresses := None; as_node := None |}.

Abbreviation ex_GET :=
  (get_node ex_IsZero ex_IP_String example_Parse ex_ParseKey ex_Get).
Abbreviation ex_PUT :=
  (put_node ex_IsZero ex_IP_String example_Parse ex_ParseKey
            ex_BodyParser_addresses ex_AddAddresses).
Abbreviation ex_POST :=
  (post_node ex_IsZero ex_IP_String example_Parse ex_ParseKey
             ex_BodyParser_node ex_Add).

Example addressToString_example :
  addressToString ex_IsZero ex_IP_String ex_addresses =
    Some ["10.0.0.1"; "node.example.org"] ∧
  addressToString ex_IsZero ex_IP_String (ex_addresses ++ [None]) = None ∧
  addressToString ex_IsZero ex_IP_String [] = Some [].
Proof. split_and!; vm_compute; reflexivity. Qed.

Example get_node_examples :
  (ex_GET (ex_request ex_cluster ex_key no_body) ex_store).1.2 = SentJSON ex_node ∧
  (ex_GET (ex_request ex_cluster "short" no_body) ex_store).1.2 = Sent 400 ∧
  (ex_GET (ex_request "00000000-0000-0000-0000-000000000000" ex_key no_body)
          ex_store).1.2 = Sent 404.
Proof. split_and!; vm_compute; reflexivity. Qed.

Example put_unknown_node_is_500 :
  (ex_PUT (ex_request "00000000-0000-0000-0000-000000000000" ex_key
             {| as_addresses := Some ex_addresses; as_node := None |})
          ex_store).1.2 = Sent 500.
Proof. vm_compute. reflexivity. Qed.

Example post_nil_address_panics :
  (ex_POST (ex_request ex_cluster ""
              {| as_addresses := None; as_node := Some ex_node_nil |})
           ∅).1.2 = Panic ∧
  (ex_POST (ex_request ex_cluster ""
              {| as_addresses := None; as_node := Some ex_node_nil |})
           ∅).2 !! (ex_cluster, ex_key) = Some ex_node_nil.
Proof. split; vm_compute; reflexivity. Qed.

Lemma addressToString_spec_witness :
  addressToString ex_IsZero ex_IP_String ex_addresses =
    Some ["10.0.0.1"; "node.example.org"] ∧
  length ["10.0.0.1"; "node.example.org"] = length ex_addresses.
Proof.
  assert (Hs : addressToString ex_IsZero ex_IP_String ex_addresses =
               Some ["10.0.0.1"; "node.example.org"])
    by (vm_compute; reflexivity).
  destruct (addressToString_spec ex_IsZero ex_IP_String ex_addresses)
    as (_ & Hout & _).
  destruct (Hout _ Hs) as (Hlen & _).
  split; [exact Hs|exact Hlen].
Defined.

Lemma ex_valid_get :
  valid_get example_Parse ex_ParseKey (ex_request ex_cluster ex_key no_body).
Proof.
  split_and!; [discriminate| | |discriminate];
    eexists; vm_compute; reflexivity.
Qed.

Lemma get_node_spec_witness :
  valid_get example_Parse ex_ParseKey (ex_request ex_cluster ex_key no_body) ∧
  (ex_GET (ex_request ex_cluster ex_key no_body) ex_store).1.2 = SentJSON ex_node ∧
  ((ex_GET (ex_request ex_cluster "short" no_body) ex_store).1.2 = Sent 400 →
   ¬ valid_get example_Parse ex_ParseKey (ex_request ex_cluster "short" no_body)).
Proof.
  destruct (get_node_spec ex_IsZero ex_IP_String example_Parse ex_ParseKey ex_Get
              (ex_request ex_cluster ex_key no_body) ex_store)
    as (_ & Hvalid & _).
  destruct (Hvalid ex_valid_get) as (_ & _ & Hout).
  destruct (get_node_spec ex_IsZero ex_IP_String example_Parse ex_ParseKey ex_Get
              (ex_request ex_cluster "short" no_body) ex_store)
    as (_ & _ & H400).
  split_and!; [exact ex_valid_get|exact Hout|exact H400].
Defined.

Lemma put_node_spec_witness :
  (ex_PUT (ex_request ex_cluster ex_key
             {| as_addresses := Some ex_addresses; as_node := None |})
          ex_store).1.2 ≠ Sent StatusNotFound ∧
  (ex_PUT (ex_request ex_cluster ex_key
             {| as_addresses := Some ex_addresses; as_node := None |})
          ex_store).1.2 = Sent StatusNoContent.
Proof.
  destruct (put_node_spec ex_IsZero ex_IP_String example_Parse ex_ParseKey
              ex_BodyParser_addresses ex_AddAddresses
              (ex_request ex_cluster ex_key
                 {| as_addresses := Some ex_addresses; as_node := None |})
              ex_store) as (_ & _ & _ & Hnot404).
  split; [exact Hnot404|vm_compute; reflexivity].
Defined.

Lemma ex_valid_post :
  valid_post example_Parse ex_ParseKey ex_BodyParser_node
    (ex_request ex_cluster ""
       {| as_addresses := None; as_node := Some ex_node_nil |}).
Proof.
  split; [eexists; vm_compute; reflexivity|].
  eexists. split; [reflexivity|]. eexists. vm_compute. reflexivity.
Qed.

Lemma post_node_spec_witness :
  valid_post example_Parse ex_ParseKey ex_BodyParser_node
    (ex_request ex_cluster ""
       {| as_addresses := None; as_node := Some ex_node_nil |}) ∧
  (ex_POST (ex_request ex_cluster ""
              {| as_addresses := None; as_node := Some ex_node_nil |})
           ∅).1.2 = Panic.
Proof.
  destruct (post_node_spec ex_IsZero ex_IP_String example_Parse ex_ParseKey
              ex_BodyParser_node ex_Add
              (ex_request ex_cluster ""
                 {| as_addresses := None; as_node := Some ex_node_nil |})
              ∅) as (_ & Hvalid & _).
  destruct (Hvalid ex_node_nil eq_refl ex_valid_post) as (_ & _ & Hout).
  split; [exact ex_valid_post|exact Hout].
Defined.

End node_handler_examples.
